(** * I-Ching codes: the encoder and the rasterizer

    A shallow embedding of [src/core/encoder/Encoder.ts] and of the
    [Writer] class, with the properties their specification states.

    JavaScript numbers are embedded as [Z] where the program only ever
    holds integers (cell values, table entries, lengths, row and column
    counts, the layout constants) and as [Q] where it divides or
    multiplies by a fraction (radii and pixel coordinates of the
    rasterizer).  The rationals are exact: the rounding of binary floating
    point is not modelled, and nothing below depends on it.  Strings are
    sequences of UTF-16 code units. *)

From Stdlib Require Import String Ascii.
From Stdlib Require Import ZArith NArith QArith Qround List Finite Bool Lia Lqa.
Import ListNotations.

Open Scope Z_scope.

(** ** JavaScript values and typed arrays *)

Module JS.

(** The values the encoder moves around: integers and [undefined]. *)
Inductive value : Type :=
| Undefined
| Number (n : Z).

(** The conversion a [Uint16Array] applies to what is stored in it:
    [undefined] becomes NaN and then 0, an integer is reduced modulo
    2^16. *)
Definition ToUint16 (v : value) : Z :=
  match v with
  | Undefined => 0
  | Number n => n mod 65536
  end.

(** [a[k] = x] on a list standing for a typed array: an index past the
    end is ignored, the array never grows. *)
Fixpoint store (a : list Z) (k : nat) (x : Z) : list Z :=
  match a, k with
  | [], _ => []
  | _ :: t, O => x :: t
  | h :: t, S k' => h :: store t k' x
  end.

(** [new Uint16Array(n)]: [n] cells, all zero. *)
Definition Uint16Array_new (n : Z) : list Z := repeat 0 (Z.to_nat n).

(** [a[k] = v] on a [Uint16Array]. *)
Definition Uint16Array_set (a : list Z) (k : nat) (v : value) : list Z :=
  store a k (ToUint16 v).

(** [t[k]] on an [Int16Array], [k] being a code unit or NaN ([None]):
    past the end of the table the read yields [undefined]. *)
Definition Int16Array_get (t : list Z) (k : option N) : value :=
  match k with
  | None => Undefined
  | Some c =>
      match nth_error t (N.to_nat c) with
      | Some v => Number v
      | None => Undefined
      end
  end.

(** [a[k]] on a [Uint16Array]: [undefined] outside the array. *)
Definition Uint16Array_get (a : list Z) (k : Z) : value :=
  if k <? 0 then Undefined
  else match nth_error a (Z.to_nat k) with
       | Some v => Number v
       | None => Undefined
       end.

(** The conversion the bitwise operators apply to their operands:
    [undefined] becomes 0, an integer is reduced modulo 2^32 into
    [-2^31, 2^31). *)
Definition wrap32 (n : Z) : Z :=
  let u := n mod 2 ^ 32 in
  if u <? 2 ^ 31 then u else u - 2 ^ 32.

Definition ToInt32 (v : value) : Z :=
  match v with
  | Undefined => 0
  | Number n => wrap32 n
  end.

(** [a << b] and [a & b] on integers. *)
Definition shl (a b : Z) : Z := wrap32 (wrap32 a * 2 ^ (b mod 32)).
Definition band (a : value) (b : Z) : Z :=
  Z.land (ToInt32 a) (wrap32 b).

(** A string is the sequence of its UTF-16 code units. *)
Definition jsstring := list N.

Definition of_string (s : string) : jsstring :=
  map N_of_ascii (list_ascii_of_string s).

(** [s.charCodeAt(i)]: the code unit at [i], NaN past the end. *)
Definition charCodeAt (s : jsstring) (i : nat) : option N := nth_error s i.

(** Object literals: property names with their values. *)
Inductive prop : Type :=
| PNumber (n : Z)
| PUint16Array (a : list Z).

Definition object := list (string * prop).

(** [o.k]; [None] stands for [undefined]. *)
Fixpoint get_prop (o : object) (k : string) : option prop :=
  match o with
  | [] => None
  | (k', v) :: o' => if String.eqb k k' then Some v else get_prop o' k
  end.

(** How a call ends.  The failure kinds are the two the specification
    names. *)
Inductive error : Type := ContentTooLong | UnsupportedCharacter.

Inductive completion (A : Type) : Type :=
| Normal (a : A)
| Throw (e : error).

Arguments Normal {A} a.
Arguments Throw {A} e.

End JS.

(** ** Encoder *)

Module Encoder.
Import JS.

Definition VERSION : Z := 0.
Definition WIDTH : Z := 8.
Definition HEIGHT : Z := 8.

Definition MAPPING_TABLE : list Z :=
  [ -1; -1; -1; -1; -1; -1; -1; -1; -1; -1; -1; -1; -1; -1; -1; -1;
    -1; -1; -1; -1; -1; -1; -1; -1; -1; -1; -1; -1; -1; -1; -1; -1;
    -1; -1; -1; -1; -1; -1; -1; -1; -1; -1; -1; -1; -1; -1; -1; -1;
    52; 53; 54; 55; 56; 57; 58; 59; 60; 61; -1; -1; -1; -1; -1; -1;
    -1; 26; 27; 28; 29; 30; 31; 32; 33; 34; 35; 36; 37; 38; 39; 40;
    41; 42; 43; 44; 45; 46; 47; 48; 49; 50; 51; -1; -1; -1; -1; -1;
    -1; 0; 1; 2; 3; 4; 5; 6; 7; 8; 9; 10; 11; 12; 13; 14;
    15; 16; 17; 18; 19; 20; 21; 22; 23; 24; 25; -1; -1; -1; -1; -1 ].

(** The first loop: [for (i = 0; i < data.length; i++) data[i] = i]. *)
Definition fill_indices (data : list Z) : list Z :=
  fold_left (fun d i => Uint16Array_set d i (Number (Z.of_nat i)))
            (seq 0 (length data)) data.

(** The second loop:
    [for (i = 0; i < content.length; i++)
       data[i + 2] = MAPPING_TABLE[content.charCodeAt(i)]]. *)
Definition pack (content : jsstring) (data : list Z) : list Z :=
  fold_left
    (fun d i =>
       Uint16Array_set d (i + 2)
         (Int16Array_get MAPPING_TABLE (charCodeAt content i)))
    (seq 0 (length content)) data.

(** The cell array [encode] builds. *)
Definition encode_data (content : jsstring) : list Z :=
  let data := Uint16Array_new (WIDTH * HEIGHT) in
  let data := fill_indices data in
  let data := Uint16Array_set data 0 (Number VERSION) in
  let data :=
    Uint16Array_set data 1 (Number (Z.of_nat (length content))) in
  pack content data.

(** [encode]: it has no [throw], so it ends normally on every string,
    with the object literal [{ version, width, height, data }]. *)
Definition encode (content : jsstring) : completion object :=
  Normal [ ("version"%string, PNumber VERSION);
           ("width"%string, PNumber WIDTH);
           ("height"%string, PNumber HEIGHT);
           ("data"%string, PUint16Array (encode_data content)) ].

(** The cells of a returned grid, empty when [o] has no [data]. *)
Definition cells (o : object) : list Z :=
  match get_prop o "data" with
  | Some (PUint16Array a) => a
  | _ => []
  end.

(** The characters the specification calls mapped, by code unit, and
    the symbol code it documents for each. *)
Definition is_digit (c : N) : bool := ((48 <=? c) && (c <=? 57))%N.
Definition is_upper (c : N) : bool := ((65 <=? c) && (c <=? 90))%N.
Definition is_lower (c : N) : bool := ((97 <=? c) && (c <=? 122))%N.
Definition mapped (c : N) : bool := is_digit c || is_upper c || is_lower c.

Definition symbol_code (c : N) : Z :=
  if is_digit c then Z.of_N c - 48 + 52
  else if is_upper c then Z.of_N c - 65 + 26
  else Z.of_N c - 97.

(** What the character read at a position leaves in its cell: the table
    entry as the [Uint16Array] keeps it. *)
Definition stored (c : option N) : Z :=
  ToUint16 (Int16Array_get MAPPING_TABLE c).

(** Cell [j] of the grid of [s], read off the three assignments of
    [encode]: the version, the length, a character or the index put
    there by the first loop. *)
Definition cell (s : jsstring) (j : nat) : Z :=
  match j with
  | O => VERSION
  | S O => Z.of_nat (length s) mod 65536
  | S (S i) =>
      if (i <? length s)%nat then stored (charCodeAt s i) else Z.of_nat j
  end.

(** The packing loop restricted to its first [n] rounds. *)
Definition pack_upto (n : nat) (content : jsstring) (data : list Z)
  : list Z :=
  fold_left
    (fun d i =>
       Uint16Array_set d (i + 2)
         (Int16Array_get MAPPING_TABLE (charCodeAt content i)))
    (seq 0 n) data.

(** Sample contents: 63 letters, one more than the grid has room for,
    and a text with a blank in it. *)
Definition too_long : jsstring := repeat 97%N 63.
Definition with_blank : jsstring := of_string "a b".

(** Every code unit from 128 on replaced by the letter a. *)
Definition fold_high (c : N) : N := if (128 <=? c)%N then 97%N else c.

(** Two contents of 63 letters that differ in their last letter only. *)
Definition long_a : jsstring := repeat 97%N 63.
Definition long_b : jsstring := repeat 97%N 62 ++ [98%N].

End Encoder.

(** ** Writer *)

Module Writer.

(** Modelled from the spec: the module [../constants] is missing from
    the sources.  The specification names the layout constants the
    rasterizer uses and gives them no value, so they are parameters of
    everything below. *)
Record Constants : Type := {
  SYMBOL_DIM : Z;
  GAP_DIM : Z;
  GRID_OFFSET : Z;
  FINDER_OFFSET : Z;
  FINDER_RADIUS : Z;
  BITS_PER_SYMBOL : Z;
  UNIT_DIM : Z
}.

(** A point [{ x, y }]. *)
Module Point.
Record t : Type := make { x : Q; y : Q }.
End Point.

(** Modelled from the spec: the class [BitMatrix] is missing from the
    sources.  It is built with a fixed height and width and all pixels
    0; [get] reads a pixel and [set] writes one; a write outside the
    matrix is ignored and a read there yields 0.  The specification
    defines the two for integer coordinates; a coordinate that is not an
    integer addresses no pixel and is treated as lying outside. *)
Module BitMatrix.

Record t : Type := make { height : Z; width : Z; bits : Z -> Z -> Z }.

Definition new (h w : Z) : t :=
  {| height := h; width := w; bits := fun _ _ => 0 |}.

(** The integer a number is, if it is one. *)
Definition integer (q : Q) : option Z :=
  if Qeq_bool q (inject_Z (Qfloor q)) then Some (Qfloor q) else None.

Definition inside (m : t) (a b : Z) : bool :=
  (0 <=? a) && (a <? width m) && (0 <=? b) && (b <? height m).

(** The pixel of [m] that the coordinates [(x, y)] address. *)
Definition pixel (m : t) (x y : Q) : option (Z * Z) :=
  match integer x, integer y with
  | Some a, Some b => if inside m a b then Some (a, b) else None
  | _, _ => None
  end.

Definition get (m : t) (x y : Q) : Z :=
  match pixel m x y with
  | Some (a, b) => bits m a b
  | None => 0
  end.

Definition set (m : t) (x y : Q) (v : Z) : t :=
  match pixel m x y with
  | Some (a, b) =>
      {| height := height m;
         width := width m;
         bits := fun a' b' =>
                   if (a' =? a) && (b' =? b) then v else bits m a' b' |}
  | None => m
  end.

End BitMatrix.

(** Modelled from the spec: the class [ImageData] is missing from the
    sources; the bitmap wraps the finished matrix. *)
Record ImageData : Type := { matrix : BitMatrix.t }.

Definition image_height (img : ImageData) : Z :=
  BitMatrix.height (matrix img).
Definition image_width (img : ImageData) : Z :=
  BitMatrix.width (matrix img).

(** The grid as [render] reads it: [code.rows], [code.cols] and
    [code.data]. *)
Record EncodedIChing : Type := { rows : Z; cols : Z; data : list Z }.

(** Reading these three properties off an object; [None] when one of
    them is [undefined]. *)
Definition of_object (o : JS.object) : option EncodedIChing :=
  match JS.get_prop o "rows", JS.get_prop o "cols", JS.get_prop o "data" with
  | Some (JS.PNumber r), Some (JS.PNumber c), Some (JS.PUint16Array d) =>
      Some {| rows := r; cols := c; data := d |}
  | _, _, _ => None
  end.

(** The values [0, 1, ..., n - 1] of a counter that starts at 0, steps
    by one and runs while it is below the integer [n]. *)
Definition range (n : Z) : list Z := map Z.of_nat (seq 0 (Z.to_nat n)).

(** The values of the counter of [for (i = lo; i <= hi; i++)]. *)
Fixpoint loop_values (fuel : nat) (i hi : Q) : list Q :=
  match fuel with
  | O => []
  | S f => if Qle_bool i hi then i :: loop_values f (i + 1) hi else []
  end.

(** The loop leaves through its test after [floor (hi - lo) + 1]
    rounds. *)
Definition loop_fuel (lo hi : Q) : nat := Z.to_nat (Qfloor (hi - lo) + 1).

Definition for_le {A : Type} (lo hi : Q) (body : Q -> A -> A) (a : A) : A :=
  fold_left (fun a i => body i a) (loop_values (loop_fuel lo hi) lo hi) a.

(** The eight coordinates [setPixelSymmetricOctant] writes, in its
    order. *)
Definition mirrors (c : Point.t) (x y : Q) : list (Q * Q) :=
  [ (Point.x c + x, Point.y c + y);
    (Point.x c + x, Point.y c - y);
    (Point.x c - x, Point.y c + y);
    (Point.x c - x, Point.y c - y);
    (Point.x c + y, Point.y c + x);
    (Point.x c + y, Point.y c - x);
    (Point.x c - y, Point.y c + x);
    (Point.x c - y, Point.y c - x) ]%Q.

Definition setPixelSymmetricOctant
  (c : Point.t) (x y : Q) (color : Z) (m : BitMatrix.t) : BitMatrix.t :=
  fold_left (fun m p => BitMatrix.set m (fst p) (snd p) color)
            (mirrors c x y) m.

(** The loop of [drawCircle], on its variables [x], [y], [dx], [dy] and
    [err]. *)
Fixpoint circle_loop (fuel : nat) (c : Point.t) (r : Q) (color : Z)
  (x y dx dy err : Q) (m : BitMatrix.t) : BitMatrix.t :=
  match fuel with
  | O => m
  | S f =>
      if Qle_bool y x then
        let m := setPixelSymmetricOctant c x y color m in
        if Qle_bool err 0
        then circle_loop f c r color x (y + 1) dx (dy + 2) (err + dy) m
        else circle_loop f c r color (x - 1) y (dx + 2) dy
               (err + ((dx + 2) - 2 * r)) m
      else m
  end%Q.

(** [x - y] starts at [r] and loses one at each round. *)
Definition circle_fuel (r : Q) : nat := Z.to_nat (Qfloor r + 1).

Definition drawCircle (c : Point.t) (r : Q) (color : Z) (m : BitMatrix.t)
  : BitMatrix.t :=
  circle_loop (circle_fuel r) c r color r 0 1 1 (1 - 2 * r)%Q m.

(** The offsets [(x, y)] the loop of [drawCircle] hands to
    [setPixelSymmetricOctant]. *)
Fixpoint circle_walk (fuel : nat) (r x y dx dy err : Q) : list (Q * Q) :=
  match fuel with
  | O => []
  | S f =>
      if Qle_bool y x then
        (x, y) ::
        (if Qle_bool err 0
         then circle_walk f r x (y + 1) dx (dy + 2) (err + dy)
         else circle_walk f r (x - 1) y (dx + 2) dy
                (err + ((dx + 2) - 2 * r)))
      else []
  end%Q.

Definition circle_offsets (r : Q) : list (Q * Q) :=
  circle_walk (circle_fuel r) r r 0 1 1 (1 - 2 * r)%Q.

Section Layout.
Variable K : Constants.

(** The three thresholds of the patterns, as exact numbers.  For a
    FINDER_RADIUS that is a multiple of 7 they are integers and are what
    the code holds; for any other FINDER_RADIUS the code holds the doubles
    nearest to the first two, which are no integers either. *)
Definition r1 : Q := inject_Z (FINDER_RADIUS K) * 3 / 7.
Definition r2 : Q := inject_Z (FINDER_RADIUS K) * 5 / 7.
Definition r3 : Q := inject_Z (FINDER_RADIUS K).

Definition drawFinderPattern (centre : Point.t) (m : BitMatrix.t)
  : BitMatrix.t :=
  let m := for_le 0 r1 (fun i => drawCircle centre i 1) m in
  for_le (r2 + 1) r3 (fun i => drawCircle centre i 1) m.

Definition drawAlignmentPattern (centre : Point.t) (m : BitMatrix.t)
  : BitMatrix.t :=
  for_le (r1 + 1) r2 (fun i => drawCircle centre i 1) m.

(** The radii the two patterns hand to [drawCircle], in order. *)
Definition finder_radii : list Q :=
  loop_values (loop_fuel 0 r1) 0 r1
  ++ loop_values (loop_fuel (r2 + 1) r3) (r2 + 1) r3.

Definition alignment_radii : list Q :=
  loop_values (loop_fuel (r1 + 1) r2) (r1 + 1) r2.

Definition fillRect (x y : Q) (width height : Z) (color : Z)
  (m : BitMatrix.t) : BitMatrix.t :=
  fold_left
    (fun m i =>
       fold_left
         (fun m j =>
            BitMatrix.set m (x + inject_Z j) (y + inject_Z i) color)
         (range width) m)
    (range height) m.

Definition startX (col : Z) : Z :=
  col * (SYMBOL_DIM K + GAP_DIM K) + GRID_OFFSET K.
Definition startY (row : Z) : Z :=
  row * (SYMBOL_DIM K + GAP_DIM K) + GRID_OFFSET K.

(** One round of the loop of [drawSymbol]. *)
Definition drawBit (row col : Z) (mask : JS.value) (m : BitMatrix.t)
  (bit : Z) : BitMatrix.t :=
  let m :=
    fillRect (inject_Z (startX col))
             (inject_Z (startY row + UNIT_DIM K * bit * 2))
             (SYMBOL_DIM K) (UNIT_DIM K) 1 m in
  if JS.band mask (JS.shl 1 bit) =? 0
  then fillRect (inject_Z (startX col) + inject_Z (UNIT_DIM K) * (9 # 2))
                (inject_Z (startY row + UNIT_DIM K * bit * 2))
                (UNIT_DIM K * 2) (UNIT_DIM K) 0 m
  else m.

Definition drawSymbol (row col : Z) (mask : JS.value) (m : BitMatrix.t)
  : BitMatrix.t :=
  fold_left (drawBit row col mask) (range (BITS_PER_SYMBOL K)) m.

Definition render (code : EncodedIChing) : ImageData :=
  let rows := rows code in
  let cols := cols code in
  let imgHeight :=
    rows * SYMBOL_DIM K + (rows - 1) * GAP_DIM K + GRID_OFFSET K * 2 in
  let imgWidth :=
    cols * SYMBOL_DIM K + (cols - 1) * GAP_DIM K + GRID_OFFSET K * 2 in
  let matrix := BitMatrix.new imgHeight imgWidth in
  let matrix :=
    drawFinderPattern
      (Point.make (inject_Z (FINDER_OFFSET K))
                  (inject_Z (FINDER_OFFSET K))) matrix in
  let matrix :=
    drawFinderPattern
      (Point.make (inject_Z (imgWidth - FINDER_OFFSET K))
                  (inject_Z (FINDER_OFFSET K))) matrix in
  let matrix :=
    drawFinderPattern
      (Point.make (inject_Z (FINDER_OFFSET K))
                  (inject_Z (imgHeight - FINDER_OFFSET K))) matrix in
  let matrix :=
    drawAlignmentPattern
      (Point.make (inject_Z (imgWidth - FINDER_OFFSET K))
                  (inject_Z (imgHeight - FINDER_OFFSET K))) matrix in
  let matrix :=
    fold_left
      (fun m i =>
         fold_left
           (fun m j =>
              drawSymbol i j
                (JS.Uint16Array_get (data code) (i * cols + j)) m)
           (range cols) m)
      (range rows) matrix in
  {| matrix := matrix |}.

End Layout.

(** The coordinates [fillRect] writes, in its order. *)
Definition rect_points (x y : Q) (width height : Z) : list (Q * Q) :=
  flat_map
    (fun i => map (fun j => (x + inject_Z j, y + inject_Z i)%Q)
                  (range width))
    (range height).

(** Is [(x, y)] one of the coordinates of the run of writes [l]? *)
Definition writtenb (l : list (Q * Q)) (x y : Q) : bool :=
  existsb (fun q => Qeq_bool (fst q) x && Qeq_bool (snd q) y) l.

Definition written (l : list (Q * Q)) (x y : Q) : Prop :=
  exists q, In q l /\ (fst q == x)%Q /\ (snd q == y)%Q.

(** The coordinates [drawCircle] and [drawFinderPattern] write, in
    their order. *)
Definition circle_writes (c : Point.t) (r : Q) : list (Q * Q) :=
  flat_map (fun o => mirrors c (fst o) (snd o)) (circle_offsets r).

Definition finder_writes (K : Constants) (c : Point.t) : list (Q * Q) :=
  flat_map (circle_writes c) (finder_radii K).

(** Two matrices of the same size. *)
Definition same_dims (m m' : BitMatrix.t) : Prop :=
  BitMatrix.height m' = BitMatrix.height m /\
  BitMatrix.width m' = BitMatrix.width m.




(** Two sample layouts, one with a radius that is a multiple of 7 and
    one with a radius that is not. *)
Definition layout_r14 : Constants :=
  {| SYMBOL_DIM := 22; GAP_DIM := 6; GRID_OFFSET := 40;
     FINDER_OFFSET := 20; FINDER_RADIUS := 14;
     BITS_PER_SYMBOL := 6; UNIT_DIM := 2 |}.


(** [render] in two steps: the registration patterns on the empty
    matrix, then the glyphs. *)
Definition imgHeight (K : Constants) (code : EncodedIChing) : Z :=
  rows code * SYMBOL_DIM K + (rows code - 1) * GAP_DIM K + GRID_OFFSET K * 2.

Definition imgWidth (K : Constants) (code : EncodedIChing) : Z :=
  cols code * SYMBOL_DIM K + (cols code - 1) * GAP_DIM K + GRID_OFFSET K * 2.

Definition draw_patterns (K : Constants) (code : EncodedIChing)
  : BitMatrix.t :=
  let matrix := BitMatrix.new (imgHeight K code) (imgWidth K code) in
  let matrix :=
    drawFinderPattern K
      (Point.make (inject_Z (FINDER_OFFSET K))
                  (inject_Z (FINDER_OFFSET K))) matrix in
  let matrix :=
    drawFinderPattern K
      (Point.make (inject_Z (imgWidth K code - FINDER_OFFSET K))
                  (inject_Z (FINDER_OFFSET K))) matrix in
  let matrix :=
    drawFinderPattern K
      (Point.make (inject_Z (FINDER_OFFSET K))
                  (inject_Z (imgHeight K code - FINDER_OFFSET K))) matrix in
  drawAlignmentPattern K
    (Point.make (inject_Z (imgWidth K code - FINDER_OFFSET K))
                (inject_Z (imgHeight K code - FINDER_OFFSET K))) matrix.

Definition draw_row (K : Constants) (code : EncodedIChing)
  (m : BitMatrix.t) (i : Z) : BitMatrix.t :=
  fold_left
    (fun m j =>
       drawSymbol K i j
         (JS.Uint16Array_get (data code) (i * cols code + j)) m)
    (range (cols code)) m.

Definition draw_symbols (K : Constants) (code : EncodedIChing)
  (m : BitMatrix.t) : BitMatrix.t :=
  fold_left (draw_row K code) (range (rows code)) m.

(** The pixel of a bar at [dx] columns from the left edge of its cell,
    for a bit of the cell value and a UNIT_DIM of [2 u]: clear in the
    notch of a 0 bit, set everywhere else. *)
Definition bar_pixel (bit : bool) (u dx : Z) : Z :=
  if bit || negb ((9 * u <=? dx) && (dx <? 13 * u)) then 1 else 0.


(** A sample grid of two rows and two columns. *)
Definition sample_grid : EncodedIChing :=
  {| rows := 2; cols := 2; data := [5; 0; 61; 33] |}.


(** The pixel [(a, b)] lies outside the cell of the glyph in row [row]
    and column [col]: left of it, above it, below its last bar, or right
    of both its bars and its notch. *)
Definition outside_cell (K : Constants) (row col a b : Z) : Prop :=
  a < startX K col \/
  b < startY K row \/
  startY K row + (2 * BITS_PER_SYMBOL K - 1) * UNIT_DIM K <= b \/
  (startX K col + SYMBOL_DIM K <= a /\
   2 * startX K col + 13 * UNIT_DIM K <= 2 * a).

(** The pixel [(a, b)] lies outside the square of half side
    FINDER_RADIUS about [(cx, cy)]. *)
Definition outside_pattern (K : Constants) (cx cy a b : Z) : Prop :=
  a < cx - FINDER_RADIUS K \/ cx + FINDER_RADIUS K < a \/
  b < cy - FINDER_RADIUS K \/ cy + FINDER_RADIUS K < b.






End Writer.

(** * The bitwise test of a glyph *)

Module JSFacts.
Import JS.

Lemma wrap32_range (n : Z) : - 2 ^ 31 <= wrap32 n < 2 ^ 31.
Proof.
  unfold wrap32.
  pose proof (Z.mod_pos_bound n (2 ^ 32) ltac:(lia)) as H.
  destruct (Z.ltb_spec (n mod 2 ^ 32) (2 ^ 31)); lia.
Qed.

Lemma wrap32_low_bits (n k : Z) :
  0 <= k < 32 -> Z.testbit (wrap32 n) k = Z.testbit n k.
Proof.
  intros Hk.
  rewrite <- (Z.mod_pow2_bits_low (wrap32 n) 32 k) by lia.
  rewrite <- (Z.mod_pow2_bits_low n 32 k) by lia.
  f_equal. unfold wrap32.
  destruct (Z.ltb_spec (n mod 2 ^ 32) (2 ^ 31)).
  - apply Z.mod_mod. lia.
  - replace (n mod 2 ^ 32 - 2 ^ 32)
      with (n mod 2 ^ 32 + (-1) * 2 ^ 32) by ring.
    rewrite Z.mod_add by lia. apply Z.mod_mod. lia.
Qed.

(** Above bit 31 a 32-bit integer repeats its sign. *)
Lemma int32_high_bits (z k : Z) :
  - 2 ^ 31 <= z < 2 ^ 31 -> 31 <= k -> Z.testbit z k = (z <? 0).
Proof.
  intros Hz Hk.
  rewrite Z.testbit_odd, Z.shiftr_div_pow2 by lia.
  assert (Hpow : 2 ^ 31 <= 2 ^ k) by (apply Z.pow_le_mono_r; lia).
  destruct (Z.ltb_spec z 0).
  - replace (z / 2 ^ k) with (-1); [reflexivity|].
    apply (Z.div_unique z (2 ^ k) (-1) (z + 2 ^ k)); lia.
  - rewrite Z.div_small by lia. reflexivity.
Qed.

Lemma shl_one (b : Z) : 0 <= b < 32 -> shl 1 b = wrap32 (2 ^ b).
Proof.
  intros Hb. unfold shl. rewrite Z.mod_small by lia.
  change (wrap32 1) with 1. rewrite Z.mul_1_l. reflexivity.
Qed.

(** [(v & (1 << b)) === 0] tests bit [b] of [v]. *)
Lemma bit_test (v b : Z) :
  0 <= b < 32 ->
  (band (Number v) (shl 1 b) =? 0) = negb (Z.testbit v b).
Proof.
  intros Hb. unfold band, ToInt32. rewrite shl_one by exact Hb.
  set (x := wrap32 v). set (y := wrap32 (wrap32 (2 ^ b))).
  assert (Hx : - 2 ^ 31 <= x < 2 ^ 31) by apply wrap32_range.
  assert (Hy : - 2 ^ 31 <= y < 2 ^ 31) by apply wrap32_range.
  assert (Hylow : forall k, 0 <= k < 32 -> Z.testbit y k = (b =? k)).
  { intros k Hk. subst y. rewrite !wrap32_low_bits by exact Hk.
    apply Z.pow2_bits_eqb. lia. }
  assert (Hxb : Z.testbit x b = Z.testbit v b)
    by (apply wrap32_low_bits; exact Hb).
  rewrite <- Hxb.
  destruct (Z.testbit x b) eqn:Hbit; simpl.
  - apply Z.eqb_neq. intros H0.
    assert (Hl : Z.testbit (Z.land x y) b = true).
    { rewrite Z.land_spec, Hbit, Hylow, Z.eqb_refl by exact Hb.
      reflexivity. }
    rewrite H0, Z.bits_0 in Hl. discriminate.
  - apply Z.eqb_eq. apply Z.bits_inj'. intros k Hk.
    rewrite Z.land_spec, Z.bits_0.
    destruct (Z.lt_ge_cases k 32) as [Hlt|Hge].
    + rewrite Hylow by lia.
      destruct (Z.eqb_spec b k) as [<-|Hne].
      * rewrite Hbit. reflexivity.
      * apply andb_false_r.
    + rewrite (int32_high_bits x k), (int32_high_bits y k) by lia.
      rewrite <- (int32_high_bits x 31), <- (int32_high_bits y 31) by lia.
      rewrite Hylow by lia.
      destruct (Z.eqb_spec b 31) as [->|Hne].
      * rewrite Hbit. reflexivity.
      * apply andb_false_r.
Qed.

End JSFacts.

(** * Properties of the encoder *)

Module EncoderFacts.
Import JS Encoder.

Lemma store_length (a : list Z) (k : nat) (x : Z) :
  length (store a k x) = length a.
Proof.
  revert k; induction a as [|h t IH]; intros [|k]; simpl; auto.
Qed.

Lemma store_nth_same (a : list Z) (k : nat) (x d : Z) :
  (k < length a)%nat -> nth k (store a k x) d = x.
Proof.
  revert k; induction a as [|h t IH]; intros [|k] Hk; simpl in *;
    try lia; auto.
  apply IH; lia.
Qed.

Lemma store_nth_other (a : list Z) (k j : nat) (x d : Z) :
  j <> k -> nth j (store a k x) d = nth j a d.
Proof.
  revert k j; induction a as [|h t IH]; intros [|k] [|j] Hjk; simpl;
    auto; try congruence.
Qed.

(** Writes past the end leave the array as it was. *)
Lemma store_out_of_range (a : list Z) (k : nat) (x : Z) :
  (length a <= k)%nat -> store a k x = a.
Proof.
  revert k; induction a as [|h t IH]; intros [|k] Hk; simpl in *;
    auto; try lia.
  f_equal; apply IH; lia.
Qed.

(** A counted loop of stores, cell by cell. *)
Lemma fold_store_nth (g : nat -> Z) (off n : nat) :
  forall (a : nat) (d : list Z) (j : nat),
    nth j (fold_left (fun d i => store d (i + off) (g i)) (seq a n) d) 0 =
    if ((a + off <=? j) && (j <? a + off + n) && (j <? length d))%nat
    then g (j - off)%nat else nth j d 0.
Proof.
  induction n as [|n IH]; intros a d j.
  - simpl. replace (j <? a + off + 0)%nat with (j <? a + off)%nat
      by (f_equal; lia).
    destruct (Nat.leb_spec (a + off) j), (Nat.ltb_spec j (a + off));
      simpl; auto; lia.
  - rewrite seq_S, fold_left_app. cbn [fold_left].
    set (d' := fold_left _ (seq a n) d).
    assert (Hlen : length d' = length d).
    { subst d'. clear IH. revert a d. induction n as [|n IHn]; intros a d;
        simpl; auto. rewrite IHn. apply store_length. }
    destruct (Nat.eq_dec j (a + n + off)) as [->|Hne].
    + destruct (Nat.ltb_spec (a + n + off) (length d)) as [Hin|Hout].
      * rewrite store_nth_same by lia.
        replace (a + off <=? a + n + off)%nat with true
          by (symmetry; apply Nat.leb_le; lia).
        replace (a + n + off <? a + off + S n)%nat with true
          by (symmetry; apply Nat.ltb_lt; lia).
        simpl. f_equal; lia.
      * rewrite store_out_of_range by lia.
        subst d'. rewrite IH.
        replace (a + n + off <? length d)%nat with false
          by (symmetry; apply Nat.ltb_ge; lia).
        rewrite !andb_false_r. reflexivity.
    + rewrite store_nth_other by exact Hne.
      subst d'. rewrite IH.
      replace (j <? a + off + S n)%nat with (j <? a + off + n)%nat.
      * reflexivity.
      * destruct (Nat.ltb_spec j (a + off + n)),
          (Nat.ltb_spec j (a + off + S n)); auto; lia.
Qed.

Lemma fold_store_length (g : nat -> Z) (off : nat) (l : list nat) :
  forall d, length (fold_left (fun d i => store d (i + off) (g i)) l d)
            = length d.
Proof.
  induction l as [|i l IH]; intros d; simpl; auto.
  rewrite IH. apply store_length.
Qed.

(** After its first loop the array holds every index in its own cell. *)
Lemma fill_indices_new :
  fill_indices (Uint16Array_new (WIDTH * HEIGHT))
  = map Z.of_nat (seq 0 64).
Proof. reflexivity. Qed.

Lemma encode_data_length (s : jsstring) : length (encode_data s) = 64%nat.
Proof.
  unfold encode_data, pack, Uint16Array_set.
  rewrite (fold_store_length (fun i => stored (charCodeAt s i)) 2).
  rewrite !store_length, fill_indices_new. reflexivity.
Qed.

Lemma encode_data_nth (s : jsstring) (j : nat) :
  (j < 64)%nat -> nth j (encode_data s) 0 = cell s j.
Proof.
  intros Hj. unfold encode_data, pack, Uint16Array_set.
  rewrite (fold_store_nth (fun i => stored (charCodeAt s i)) 2).
  rewrite !store_length, fill_indices_new.
  change (length (map Z.of_nat (seq 0 64))) with 64%nat.
  replace (j <? 64)%nat with true by (symmetry; apply Nat.ltb_lt; lia).
  rewrite andb_true_r. simpl (0 + 2)%nat.
  destruct j as [|[|i]].
  - reflexivity.
  - reflexivity.
  - simpl (2 <=? S (S i))%nat. cbn [andb cell].
    replace (S (S i) <? 2 + length s)%nat with (i <? length s)%nat
      by (destruct (Nat.ltb_spec i (length s)),
            (Nat.ltb_spec (S (S i)) (2 + length s)); auto; lia).
    destruct (i <? length s)%nat.
    + f_equal. f_equal. lia.
    + rewrite !store_nth_other by lia.
      rewrite (nth_indep _ 0 (Z.of_nat 0)) by (rewrite length_map, length_seq; lia).
      rewrite map_nth, seq_nth by lia. reflexivity.
Qed.

Lemma encode_data_nth_error (s : jsstring) (j : nat) :
  (j < 64)%nat -> nth_error (encode_data s) j = Some (cell s j).
Proof.
  intros Hj. rewrite <- (encode_data_nth s j Hj).
  apply nth_error_nth'. rewrite encode_data_length. exact Hj.
Qed.

Lemma cells_encode (s : jsstring) :
  exists o, encode s = Normal o /\ cells o = encode_data s.
Proof. eexists; split; reflexivity. Qed.

(** On the mapped characters the table holds the documented codes. *)
Lemma table_on_mapped (c : N) :
  mapped c = true -> stored (Some c) = symbol_code c.
Proof.
  intros Hm.
  assert (Hlt : (c < 128)%N).
  { unfold mapped, is_digit, is_upper, is_lower in Hm.
    repeat (apply orb_prop in Hm; destruct Hm as [Hm|Hm]);
      apply andb_prop in Hm; destruct Hm as [_ Hm];
      apply N.leb_le in Hm; lia. }
  assert (Hall : forallb
            (fun k => implb (mapped k) (stored (Some k) =? symbol_code k))
            (map N.of_nat (seq 0 128)) = true) by (vm_compute; reflexivity).
  assert (Hin : In c (map N.of_nat (seq 0 128))).
  { apply in_map_iff. exists (N.to_nat c). split; [lia|].
    apply in_seq; lia. }
  rewrite forallb_forall in Hall.
  apply Hall in Hin. rewrite Hm in Hin.
  apply Z.eqb_eq. exact Hin.
Qed.

(** The documented ranges of the table, read on [symbol_code]. *)
Lemma symbol_code_ranges (c : N) :
  (is_digit c = true -> 52 <= symbol_code c <= 61) /\
  (is_upper c = true -> 26 <= symbol_code c <= 51) /\
  (is_lower c = true -> 0 <= symbol_code c <= 25).
Proof.
  unfold symbol_code, is_digit, is_upper, is_lower.
  destruct (N.leb_spec 48 c), (N.leb_spec c 57), (N.leb_spec 65 c),
    (N.leb_spec c 90), (N.leb_spec 97 c), (N.leb_spec c 122);
    simpl; repeat split; intros; try discriminate; lia.
Qed.

(** C1: on a content of at most 62 mapped characters [encode] ends
    normally with a grid of 64 cells: cell 0 is VERSION, cell 1 the
    number of characters, cell [i + 2] the documented symbol code of the
    character at position [i], and every cell from [length + 2] on is
    its own index. *)
Theorem encode_valid_content (s : jsstring) :
  (length s <= 62)%nat ->
  forallb mapped s = true ->
  exists o,
    encode s = Normal o /\
    length (cells o) = 64%nat /\
    nth_error (cells o) 0 = Some VERSION /\
    nth_error (cells o) 1 = Some (Z.of_nat (length s)) /\
    (forall i c, nth_error s i = Some c ->
                 nth_error (cells o) (i + 2) = Some (symbol_code c)) /\
    (forall k, (length s + 2 <= k < 64)%nat ->
               nth_error (cells o) k = Some (Z.of_nat k)).
Proof.
  intros Hlen Hmap.
  destruct (cells_encode s) as (o & Ho & Hc).
  exists o. rewrite Hc. split; [exact Ho|].
  split; [apply encode_data_length|].
  split; [apply (encode_data_nth_error s 0); lia|].
  split.
  { rewrite (encode_data_nth_error s 1) by lia. simpl.
    rewrite Z.mod_small by lia. reflexivity. }
  split.
  - intros i c Hi.
    assert (Hlt : (i < length s)%nat)
      by (apply nth_error_Some; congruence).
    rewrite encode_data_nth_error by lia.
    replace (i + 2)%nat with (S (S i)) by lia. cbn [cell].
    replace (i <? length s)%nat with true
      by (symmetry; apply Nat.ltb_lt; exact Hlt).
    unfold charCodeAt. rewrite Hi. f_equal.
    apply table_on_mapped.
    rewrite forallb_forall in Hmap. apply Hmap.
    eapply nth_error_In; eassumption.
  - intros k Hk. rewrite encode_data_nth_error by lia.
    destruct k as [|[|i]]; try lia. cbn [cell].
    replace (i <? length s)%nat with false
      by (symmetry; apply Nat.ltb_ge; lia).
    reflexivity.
Qed.

Lemma encode_valid_content_witness :
  exists o,
    encode (of_string "Hi9") = Normal o /\
    firstn 6 (cells o) = [0; 3; 33; 8; 61; 5].
Proof.
  destruct (encode_valid_content (of_string "Hi9")) as (o & Ho & _);
    [simpl; lia | reflexivity |].
  exists o. split; [exact Ho|].
  injection Ho as <-. reflexivity.
Defined.

(** A write addressed past the last cell returns the array as it is. *)
Lemma set_past_end (d : list Z) (i : nat) (v : value) :
  length d = 64%nat -> (62 <= i)%nat -> Uint16Array_set d (i + 2) v = d.
Proof.
  intros Hd Hi. unfold Uint16Array_set. apply store_out_of_range. lia.
Qed.

Lemma pack_rounds_past_end (s : jsstring) (n : nat) :
  forall (a : nat) (d : list Z),
    length d = 64%nat -> (62 <= a)%nat ->
    fold_left
      (fun d i =>
         Uint16Array_set d (i + 2)
           (Int16Array_get MAPPING_TABLE (charCodeAt s i)))
      (seq a n) d = d.
Proof.
  induction n as [|n IH]; intros a d Hd Ha; simpl; auto.
  rewrite set_past_end by assumption.
  apply IH; [assumption | lia].
Qed.

(** The rounds from position 62 on change nothing. *)
Lemma pack_drops_overflow (s : jsstring) (d : list Z) :
  length d = 64%nat ->
  pack s d = pack_upto (Nat.min (length s) 62) s d.
Proof.
  intros Hd. unfold pack, pack_upto.
  destruct (Nat.le_gt_cases (length s) 62) as [Hle|Hgt].
  - rewrite Nat.min_l by exact Hle. reflexivity.
  - rewrite Nat.min_r by lia.
    replace (length s) with (62 + (length s - 62))%nat at 1 by lia.
    rewrite seq_app, fold_left_app. simpl (0 + 62)%nat.
    apply pack_rounds_past_end; [|lia].
    unfold Uint16Array_set.
    rewrite (fold_store_length (fun i => stored (charCodeAt s i)) 2).
    exact Hd.
Qed.

(** C2, as stated, fails: a content of 63 letters is longer than the
    62 data cells, and [encode] does not end in ContentTooLong on it. *)
Lemma encode_too_long_not_rejected :
  (62 < length too_long)%nat /\ encode too_long <> Throw ContentTooLong.
Proof. split; [simpl; lia | discriminate]. Qed.

(** C2, amended: on a content longer than 62 characters [encode] still
    ends normally, with a grid of exactly 64 cells: cell 0 is VERSION,
    cell 1 the length modulo 2^16, cell [i + 2] what character [i] stores
    for each [i < 62]; the rounds for the characters from position 62 on
    leave the grid as it is. *)
Theorem encode_too_long_truncates (s : jsstring) :
  (62 < length s)%nat ->
  exists o,
    encode s = Normal o /\
    length (cells o) = 64%nat /\
    nth_error (cells o) 0 = Some VERSION /\
    nth_error (cells o) 1 = Some (Z.of_nat (length s) mod 65536) /\
    (forall i, (i < 62)%nat ->
               nth_error (cells o) (i + 2)
               = Some (stored (charCodeAt s i))) /\
    (forall d, length d = 64%nat -> pack s d = pack_upto 62 s d).
Proof.
  intros Hlen.
  destruct (cells_encode s) as (o & Ho & Hc).
  exists o. rewrite Hc. split; [exact Ho|].
  split; [apply encode_data_length|].
  split; [apply (encode_data_nth_error s 0); lia|].
  split; [apply (encode_data_nth_error s 1); lia|].
  split.
  - intros i Hi. rewrite encode_data_nth_error by lia.
    replace (i + 2)%nat with (S (S i)) by lia. cbn [cell].
    replace (i <? length s)%nat with true
      by (symmetry; apply Nat.ltb_lt; lia).
    reflexivity.
  - intros d Hd. rewrite pack_drops_overflow by exact Hd.
    rewrite Nat.min_r by lia. reflexivity.
Qed.

Lemma encode_too_long_truncates_witness :
  (62 < length too_long)%nat /\
  exists o,
    encode too_long = Normal o /\
    cells o = [0; 63] ++ repeat 0 62.
Proof.
  split; [simpl; lia|].
  destruct (encode_too_long_truncates too_long) as (o & Ho & _);
    [simpl; lia|].
  exists o. split; [exact Ho|].
  injection Ho as <-. reflexivity.
Defined.

(** C3, as stated, fails: the blank of "a b" has table entry -1, and
    [encode] does not end in UnsupportedCharacter on it. *)
Lemma encode_unmapped_not_rejected :
  (exists i c, nth_error with_blank i = Some c /\
               nth_error MAPPING_TABLE (N.to_nat c) = Some (-1)) /\
  encode with_blank <> Throw UnsupportedCharacter.
Proof.
  split; [|discriminate].
  exists 1%nat, 32%N. split; reflexivity.
Qed.

(** C3, amended: a content holding a character whose table entry is -1
    is not rejected and nothing is validated: [encode] ends normally with
    the full grid of 64 cells, each cell being what the assignments put
    there, and the cell of such a character (position below 62) holds
    65535. *)
Theorem encode_unmapped_passes_through (s : jsstring) (i : nat) (c : N) :
  nth_error s i = Some c ->
  nth_error MAPPING_TABLE (N.to_nat c) = Some (-1) ->
  exists o,
    encode s = Normal o /\
    length (cells o) = 64%nat /\
    ((i < 62)%nat -> nth_error (cells o) (i + 2) = Some 65535) /\
    (forall j, (j < 64)%nat -> nth_error (cells o) j = Some (cell s j)).
Proof.
  intros Hi Hc.
  destruct (cells_encode s) as (o & Ho & Hd).
  exists o. rewrite Hd. split; [exact Ho|].
  split; [apply encode_data_length|].
  split; [|intros j Hj; apply encode_data_nth_error; exact Hj].
  intros Hlt. rewrite encode_data_nth_error by lia.
  replace (i + 2)%nat with (S (S i)) by lia. cbn [cell].
  assert (Hin : (i < length s)%nat) by (apply nth_error_Some; congruence).
  replace (i <? length s)%nat with true
    by (symmetry; apply Nat.ltb_lt; exact Hin).
  unfold charCodeAt, stored, Int16Array_get. rewrite Hi, Hc.
  reflexivity.
Qed.

Lemma encode_unmapped_passes_through_witness :
  exists o,
    encode with_blank = Normal o /\
    firstn 6 (cells o) = [0; 3; 0; 65535; 1; 5].
Proof.
  destruct (encode_unmapped_passes_through with_blank 1 32)
    as (o & Ho & _); [reflexivity | reflexivity |].
  exists o. split; [exact Ho|].
  injection Ho as <-. reflexivity.
Defined.

(** C9: on every string [encode] ends normally and its data array has
    exactly 64 cells; each cell is what the assignments addressed to it
    put there ([cell]), and an assignment addressed past index 63 returns
    the array unchanged, so that packing a long content is packing its
    first 62 characters. *)
Theorem encode_total_fixed_size (s : jsstring) :
  exists o,
    encode s = Normal o /\
    length (cells o) = 64%nat /\
    (forall j, (j < 64)%nat -> nth_error (cells o) j = Some (cell s j)) /\
    (forall d k v, length d = 64%nat -> (64 <= k)%nat ->
                   Uint16Array_set d k v = d) /\
    (forall d, length d = 64%nat ->
               pack s d = pack_upto (Nat.min (length s) 62) s d).
Proof.
  destruct (cells_encode s) as (o & Ho & Hd).
  exists o. rewrite Hd. split; [exact Ho|].
  split; [apply encode_data_length|].
  split; [intros j Hj; apply encode_data_nth_error; exact Hj|].
  split.
  - intros d k v Hlen Hk. unfold Uint16Array_set.
    apply store_out_of_range. lia.
  - intros d Hlen. apply pack_drops_overflow. exact Hlen.
Qed.

Lemma stored_range (c : option N) : 0 <= stored c < 65536.
Proof.
  unfold stored, ToUint16.
  destruct (Int16Array_get MAPPING_TABLE c); [lia|].
  apply Z.mod_pos_bound. lia.
Qed.

(** C10: a character whose table entry is -1 leaves 65535 in its cell,
    a character whose code is 128 or more (where the table read yields
    [undefined]) leaves 0 there, and every cell of every grid lies in
    [0, 65536).  The cell of the character at position [i] is cell
    [i + 2], which exists for [i < 62]. *)
Theorem encode_unmapped_cell_values (s : jsstring) (i : nat) (c : N) :
  nth_error s i = Some c ->
  (i < 62)%nat ->
  exists o,
    encode s = Normal o /\
    (nth_error MAPPING_TABLE (N.to_nat c) = Some (-1) ->
     nth_error (cells o) (i + 2) = Some 65535) /\
    ((128 <= c)%N -> nth_error (cells o) (i + 2) = Some 0) /\
    (forall j v, nth_error (cells o) j = Some v -> 0 <= v < 65536).
Proof.
  intros Hi Hlt.
  destruct (cells_encode s) as (o & Ho & Hd).
  exists o. rewrite Hd. split; [exact Ho|].
  assert (Hin : (i < length s)%nat) by (apply nth_error_Some; congruence).
  assert (Hcell : nth_error (encode_data s) (i + 2)
                  = Some (stored (Some c))).
  { rewrite encode_data_nth_error by lia.
    replace (i + 2)%nat with (S (S i)) by lia. cbn [cell].
    replace (i <? length s)%nat with true
      by (symmetry; apply Nat.ltb_lt; exact Hin).
    unfold charCodeAt. rewrite Hi. reflexivity. }
  rewrite Hcell. split; [|split].
  - intros Hc. unfold stored, Int16Array_get. rewrite Hc. reflexivity.
  - intros Hc. unfold stored, Int16Array_get.
    assert (Hnone : nth_error MAPPING_TABLE (N.to_nat c) = None).
    { apply nth_error_None.
      change (length MAPPING_TABLE) with 128%nat. lia. }
    rewrite Hnone. reflexivity.
  - intros j v Hj.
    assert (Hj64 : (j < 64)%nat).
    { rewrite <- (encode_data_length s). apply nth_error_Some.
      congruence. }
    rewrite encode_data_nth_error in Hj by exact Hj64.
    injection Hj as <-.
    destruct j as [|[|k]]; cbn [cell].
    + unfold VERSION. lia.
    + apply Z.mod_pos_bound. lia.
    + destruct (k <? length s)%nat; [apply stored_range | lia].
Qed.

Lemma encode_unmapped_cell_values_witness :
  exists o,
    encode [97; 32; 233; 8364]%N = Normal o /\
    firstn 7 (cells o) = [0; 4; 0; 65535; 0; 0; 6].
Proof.
  destruct (encode_unmapped_cell_values [97; 32; 233; 8364]%N 1 32)
    as (o & Ho & _); [reflexivity | lia |].
  exists o. split; [exact Ho|].
  injection Ho as <-. reflexivity.
Defined.

End EncoderFacts.

(** * Properties of the rasterizer *)

Module WriterFacts.
Import Writer.

(** ** The size of the matrix never changes *)

Lemma same_dims_refl (m : BitMatrix.t) : same_dims m m.
Proof. split; reflexivity. Qed.

Lemma same_dims_trans (m1 m2 m3 : BitMatrix.t) :
  same_dims m1 m2 -> same_dims m2 m3 -> same_dims m1 m3.
Proof. unfold same_dims; intros [] []; split; congruence. Qed.

Lemma set_dims (m : BitMatrix.t) (x y : Q) (v : Z) :
  same_dims m (BitMatrix.set m x y v).
Proof.
  unfold BitMatrix.set.
  destruct (BitMatrix.pixel m x y) as [[a b]|]; split; reflexivity.
Qed.

Lemma fold_dims {A : Type} (f : BitMatrix.t -> A -> BitMatrix.t) :
  (forall m a, same_dims m (f m a)) ->
  forall l m, same_dims m (fold_left f l m).
Proof.
  intros Hf l; induction l as [|a l IH]; intros m; simpl.
  - apply same_dims_refl.
  - eapply same_dims_trans; [apply Hf | apply IH].
Qed.

Lemma setPixelSymmetricOctant_dims c x y color m :
  same_dims m (setPixelSymmetricOctant c x y color m).
Proof. apply fold_dims. intros; apply set_dims. Qed.

Lemma circle_loop_dims fuel c r color :
  forall x y dx dy err m,
    same_dims m (circle_loop fuel c r color x y dx dy err m).
Proof.
  induction fuel as [|f IH]; intros x y dx dy err m; simpl.
  - apply same_dims_refl.
  - destruct (Qle_bool y x); [|apply same_dims_refl].
    destruct (Qle_bool err 0);
      (eapply same_dims_trans;
       [apply setPixelSymmetricOctant_dims | apply IH]).
Qed.

Lemma drawCircle_dims c r color m : same_dims m (drawCircle c r color m).
Proof. apply circle_loop_dims. Qed.

Lemma for_le_dims lo hi (body : Q -> BitMatrix.t -> BitMatrix.t) :
  (forall i m, same_dims m (body i m)) ->
  forall m, same_dims m (for_le lo hi body m).
Proof. intros Hb m. apply fold_dims. intros; apply Hb. Qed.

Lemma drawFinderPattern_dims K c m :
  same_dims m (drawFinderPattern K c m).
Proof.
  unfold drawFinderPattern.
  eapply same_dims_trans; apply for_le_dims; intros; apply drawCircle_dims.
Qed.

Lemma drawAlignmentPattern_dims K c m :
  same_dims m (drawAlignmentPattern K c m).
Proof. apply for_le_dims; intros; apply drawCircle_dims. Qed.

Lemma fillRect_dims x y w h color m :
  same_dims m (fillRect x y w h color m).
Proof.
  apply fold_dims. intros; apply fold_dims. intros; apply set_dims.
Qed.

Lemma drawSymbol_dims K row col mask m :
  same_dims m (drawSymbol K row col mask m).
Proof.
  apply fold_dims. intros m' bit. unfold drawBit.
  destruct (JS.band mask (JS.shl 1 bit) =? 0).
  - eapply same_dims_trans; apply fillRect_dims.
  - apply fillRect_dims.
Qed.

(** C5: the bitmap [render] returns for a grid of [r] rows and [c]
    columns is [r * SYMBOL_DIM + (r - 1) * GAP_DIM + 2 * GRID_OFFSET]
    pixels high and [c * SYMBOL_DIM + (c - 1) * GAP_DIM + 2 * GRID_OFFSET]
    pixels wide. *)
Theorem render_dimensions (K : Constants) (code : EncodedIChing) :
  image_height (render K code)
  = rows code * SYMBOL_DIM K + (rows code - 1) * GAP_DIM K
    + 2 * GRID_OFFSET K
  /\ image_width (render K code)
     = cols code * SYMBOL_DIM K + (cols code - 1) * GAP_DIM K
       + 2 * GRID_OFFSET K.
Proof.
  unfold image_height, image_width, render. cbn [matrix].
  match goal with
  | |- BitMatrix.height (fold_left ?f ?l ?m) = _ /\ _ =>
      assert (Hd : same_dims m (fold_left f l m))
  end.
  { apply fold_dims. intros; apply fold_dims.
    intros; apply drawSymbol_dims. }
  destruct Hd as [Hh Hw]. rewrite Hh, Hw.
  match goal with
  | |- BitMatrix.height (drawAlignmentPattern K ?c ?m) = _ /\ _ =>
      destruct (drawAlignmentPattern_dims K c m) as [Hh1 Hw1]
  end.
  rewrite Hh1, Hw1.
  repeat match goal with
  | |- BitMatrix.height (drawFinderPattern K ?c ?m) = _ /\ _ =>
      let H1 := fresh in let H2 := fresh in
      destruct (drawFinderPattern_dims K c m) as [H1 H2];
      rewrite H1, H2; clear H1 H2
  end.
  cbn [BitMatrix.new BitMatrix.height BitMatrix.width].
  split; ring.
Qed.

(** ** The radii of the patterns *)

Lemma Qfloor_unique (q : Q) (z : Z) :
  (inject_Z z <= q)%Q -> (q < inject_Z (z + 1))%Q -> Qfloor q = z.
Proof.
  intros Hlo Hhi.
  assert (H1 : z <= Qfloor q).
  { rewrite <- (Qfloor_Z z). apply Qfloor_resp_le. exact Hlo. }
  assert (H2 : Qfloor q < z + 1).
  { rewrite Zlt_Qlt. eapply Qle_lt_trans; [apply Qfloor_le | exact Hhi]. }
  lia.
Qed.

Lemma Qfloor_pred (q : Q) : Qfloor (q - 1) = Qfloor q - 1.
Proof.
  apply Qfloor_unique.
  - unfold Z.sub. rewrite inject_Z_plus.
    pose proof (Qfloor_le q).
    change (inject_Z (- (1))) with (- (1))%Q. lra.
  - replace (Qfloor q - 1 + 1) with (Qfloor q) by lia.
    pose proof (Qlt_floor q) as H. rewrite inject_Z_plus in H.
    change (inject_Z 1) with 1%Q in H. lra.
Qed.





(** The loop leaves through its test: more fuel adds no round. *)
Lemma loop_values_fuel (hi : Q) (n : nat) :
  forall lo : Q,
    n = Z.to_nat (Qfloor (hi - lo) + 1) ->
    forall extra, loop_values (n + extra) lo hi = loop_values n lo hi.
Proof.
  induction n as [|n IH]; intros lo Hn extra.
  - destruct extra as [|e]; [reflexivity|]. simpl.
    assert (Hgt : ~ (lo <= hi)%Q).
    { intros Hle.
      assert (H0 : 0 <= Qfloor (hi - lo)).
      { rewrite <- (Qfloor_Z 0). apply Qfloor_resp_le.
        change (inject_Z 0) with 0%Q. lra. }
      lia. }
    rewrite <- Qle_bool_iff in Hgt.
    destruct (Qle_bool lo hi); [exfalso; apply Hgt; reflexivity|].
    reflexivity.
  - simpl. destruct (Qle_bool lo hi); [|reflexivity].
    f_equal. apply IH.
    assert (He : (hi - (lo + 1) == hi - lo - 1)%Q) by lra.
    rewrite (Qfloor_comp _ _ He), Qfloor_pred. lia.
Qed.


Section Radii.
Variable K : Constants.
#[local] Abbreviation R := (FINDER_RADIUS K).








End Radii.



(** ** Reading and writing pixels *)

Lemma pixel_same_dims (m m' : BitMatrix.t) (x y : Q) :
  same_dims m m' -> BitMatrix.pixel m' x y = BitMatrix.pixel m x y.
Proof.
  intros [Hh Hw]. unfold BitMatrix.pixel, BitMatrix.inside.
  rewrite Hh, Hw. reflexivity.
Qed.

Lemma pixel_set (m : BitMatrix.t) (x y : Q) (v : Z) (x' y' : Q) :
  BitMatrix.pixel (BitMatrix.set m x y v) x' y' = BitMatrix.pixel m x' y'.
Proof. apply pixel_same_dims, set_dims. Qed.

Lemma get_set_same (m : BitMatrix.t) (x y : Q) (v : Z) :
  BitMatrix.pixel m x y <> None ->
  BitMatrix.get (BitMatrix.set m x y v) x y = v.
Proof.
  intros Hp. unfold BitMatrix.get. rewrite pixel_set.
  unfold BitMatrix.set.
  destruct (BitMatrix.pixel m x y) as [[a b]|]; [|congruence].
  simpl. rewrite !Z.eqb_refl. reflexivity.
Qed.

Lemma get_set_keep (m : BitMatrix.t) (x y : Q) (v : Z) (x' y' : Q) :
  BitMatrix.get m x' y' = v ->
  BitMatrix.get (BitMatrix.set m x y v) x' y' = v.
Proof.
  unfold BitMatrix.get. rewrite pixel_set. unfold BitMatrix.set.
  destruct (BitMatrix.pixel m x' y') as [[a' b']|];
    destruct (BitMatrix.pixel m x y) as [[a b]|]; simpl; auto.
  destruct ((a' =? a) && (b' =? b)); auto.
Qed.

Lemma get_set_other (m : BitMatrix.t) (x y : Q) (v : Z) (x' y' : Q) :
  BitMatrix.pixel m x y <> BitMatrix.pixel m x' y' ->
  BitMatrix.get (BitMatrix.set m x y v) x' y' = BitMatrix.get m x' y'.
Proof.
  intros Hne. unfold BitMatrix.get. rewrite pixel_set.
  unfold BitMatrix.set.
  destruct (BitMatrix.pixel m x' y') as [[a' b']|];
    destruct (BitMatrix.pixel m x y) as [[a b]|]; simpl; auto.
  destruct (Z.eqb_spec a' a), (Z.eqb_spec b' b); simpl; auto.
  subst. congruence.
Qed.

(** A run of writes of one colour: what has the colour keeps it, and
    each pixel written has it in the end. *)
Lemma writes_keep (v : Z) (l : list (Q * Q)) :
  forall (m : BitMatrix.t) (x y : Q),
    BitMatrix.get m x y = v ->
    BitMatrix.get
      (fold_left (fun m p => BitMatrix.set m (fst p) (snd p) v) l m) x y
    = v.
Proof.
  induction l as [|p l IH]; intros m x y H; simpl; auto.
  apply IH, get_set_keep, H.
Qed.

Lemma writes_set (v : Z) (l : list (Q * Q)) :
  forall (m : BitMatrix.t) (p : Q * Q),
    In p l ->
    BitMatrix.pixel m (fst p) (snd p) <> None ->
    BitMatrix.get
      (fold_left (fun m p => BitMatrix.set m (fst p) (snd p) v) l m)
      (fst p) (snd p)
    = v.
Proof.
  induction l as [|q l IH]; intros m p Hin Hp; simpl; [contradiction|].
  destruct Hin as [->|Hin].
  - apply writes_keep, get_set_same, Hp.
  - apply IH; [exact Hin|]. rewrite pixel_set. exact Hp.
Qed.

(** ** The circle *)

Lemma circle_loop_keep fuel c r v (a b : Q) :
  forall x y dx dy err m,
    BitMatrix.get m a b = v ->
    BitMatrix.get (circle_loop fuel c r v x y dx dy err m) a b = v.
Proof.
  induction fuel as [|f IH]; intros x y dx dy err m H; simpl; auto.
  destruct (Qle_bool y x); auto.
  destruct (Qle_bool err 0); apply IH, writes_keep, H.
Qed.

Lemma circle_loop_sets fuel c r v (x0 y0 : Q) (p : Q * Q) :
  In p (mirrors c x0 y0) ->
  forall x y dx dy err m,
    In (x0, y0) (circle_walk fuel r x y dx dy err) ->
    BitMatrix.pixel m (fst p) (snd p) <> None ->
    BitMatrix.get (circle_loop fuel c r v x y dx dy err m) (fst p) (snd p)
    = v.
Proof.
  intros Hp.
  induction fuel as [|f IH]; intros x y dx dy err m Hin Hpix; simpl in *;
    [contradiction|].
  destruct (Qle_bool y x); [|contradiction].
  destruct Hin as [Heq|Hin].
  - injection Heq as -> ->.
    destruct (Qle_bool err 0); apply circle_loop_keep;
      apply writes_set; assumption.
  - destruct (Qle_bool err 0); apply IH; try exact Hin;
      rewrite (pixel_same_dims m); try exact Hpix;
      apply setPixelSymmetricOctant_dims.
Qed.

Lemma circles_keep c (a b : Q) (l : list Q) :
  forall m,
    BitMatrix.get m a b = 1 ->
    BitMatrix.get (fold_left (fun m i => drawCircle c i 1 m) l m) a b = 1.
Proof.
  induction l as [|i l IH]; intros m H; simpl; auto.
  apply IH, circle_loop_keep, H.
Qed.

Lemma circles_set c (r x y : Q) (p : Q * Q) (l : list Q) :
  In r l ->
  In (x, y) (circle_offsets r) ->
  In p (mirrors c x y) ->
  forall m,
    BitMatrix.pixel m (fst p) (snd p) <> None ->
    BitMatrix.get (fold_left (fun m i => drawCircle c i 1 m) l m)
      (fst p) (snd p) = 1.
Proof.
  intros Hr Hxy Hp.
  induction l as [|i l IH]; intros m Hpix; simpl; [contradiction|].
  destruct Hr as [->|Hr].
  - apply circles_keep. eapply circle_loop_sets; eassumption.
  - apply IH; [exact Hr|].
    rewrite (pixel_same_dims m); [exact Hpix | apply drawCircle_dims].
Qed.

Lemma drawFinderPattern_fold K c m :
  drawFinderPattern K c m
  = fold_left (fun m i => drawCircle c i 1 m) (finder_radii K) m.
Proof.
  unfold drawFinderPattern, finder_radii, for_le.
  rewrite fold_left_app. reflexivity.
Qed.

(** The loop of [drawCircle] leaves through its test: more fuel adds no
    round. *)
Lemma circle_loop_fuel c r v (n : nat) :
  forall x y dx dy err m,
    n = Z.to_nat (Qfloor (x - y) + 1) ->
    forall extra,
      circle_loop (n + extra) c r v x y dx dy err m
      = circle_loop n c r v x y dx dy err m.
Proof.
  induction n as [|n IH]; intros x y dx dy err m Hn extra.
  - destruct extra as [|e]; [reflexivity|]. simpl.
    assert (Hgt : ~ (y <= x)%Q).
    { intros Hle.
      assert (H0 : 0 <= Qfloor (x - y)).
      { rewrite <- (Qfloor_Z 0). apply Qfloor_resp_le.
        change (inject_Z 0) with 0%Q. lra. }
      lia. }
    rewrite <- Qle_bool_iff in Hgt.
    destruct (Qle_bool y x); [exfalso; apply Hgt; reflexivity|].
    reflexivity.
  - simpl. destruct (Qle_bool y x); [|reflexivity].
    destruct (Qle_bool err 0); apply IH.
    + assert (He : (x - (y + 1) == x - y - 1)%Q) by lra.
      rewrite (Qfloor_comp _ _ He), Qfloor_pred. lia.
    + assert (He : (x - 1 - y == x - y - 1)%Q) by lra.
      rewrite (Qfloor_comp _ _ He), Qfloor_pred. lia.
Qed.

Lemma drawCircle_fuel c r v m (extra : nat) :
  circle_loop (circle_fuel r + extra) c r v r 0 1 1 (1 - 2 * r)%Q m
  = drawCircle c r v m.
Proof.
  apply circle_loop_fuel. unfold circle_fuel.
  assert (He : (r - 0 == r)%Q) by lra.
  rewrite (Qfloor_comp _ _ He). reflexivity.
Qed.

(** [drawCircle] hands the offsets of its walk, in order, to
    [setPixelSymmetricOctant]. *)
Lemma circle_loop_walk fuel c r v :
  forall x y dx dy err m,
    circle_loop fuel c r v x y dx dy err m
    = fold_left (fun m o => setPixelSymmetricOctant c (fst o) (snd o) v m)
        (circle_walk fuel r x y dx dy err) m.
Proof.
  induction fuel as [|f IH]; intros x y dx dy err m; simpl; auto.
  destruct (Qle_bool y x); [|reflexivity].
  destruct (Qle_bool err 0); simpl; apply IH.
Qed.

(** ** Rectangles and glyphs *)

Lemma integer_Qeq (q : Q) (a : Z) :
  BitMatrix.integer q = Some a -> (q == inject_Z a)%Q.
Proof.
  unfold BitMatrix.integer.
  destruct (Qeq_bool q (inject_Z (Qfloor q))) eqn:He; [|discriminate].
  intros H; injection H as <-. apply Qeq_bool_iff, He.
Qed.

Lemma pixel_Qeq (m : BitMatrix.t) (x y : Q) (a b : Z) :
  BitMatrix.pixel m x y = Some (a, b) ->
  (x == inject_Z a)%Q /\ (y == inject_Z b)%Q.
Proof.
  unfold BitMatrix.pixel.
  destruct (BitMatrix.integer x) as [a'|] eqn:Hx; [|discriminate].
  destruct (BitMatrix.integer y) as [b'|] eqn:Hy; [|discriminate].
  destruct (BitMatrix.inside m a' b'); [|discriminate].
  intros H; injection H as <- <-.
  split; apply integer_Qeq; assumption.
Qed.

(** A write elsewhere leaves a pixel as it was. *)
Lemma get_set_far (m : BitMatrix.t) (x y : Q) (v : Z) (x' y' : Q) :
  ~ ((x == x')%Q /\ (y == y')%Q) ->
  BitMatrix.get (BitMatrix.set m x y v) x' y' = BitMatrix.get m x' y'.
Proof.
  intros Hfar.
  destruct (BitMatrix.pixel m x y) as [[a b]|] eqn:Hp.
  - apply get_set_other. rewrite Hp. intros Heq. symmetry in Heq.
    apply pixel_Qeq in Hp, Heq. destruct Hp as [Hx Hy], Heq as [Hx' Hy'].
    apply Hfar. split; [rewrite Hx, Hx' | rewrite Hy, Hy']; reflexivity.
  - unfold BitMatrix.set. rewrite Hp. reflexivity.
Qed.

Lemma writes_far (v : Z) (x' y' : Q) (l : list (Q * Q)) :
  (forall q, In q l -> ~ ((fst q == x')%Q /\ (snd q == y')%Q)) ->
  forall m,
    BitMatrix.get
      (fold_left (fun m p => BitMatrix.set m (fst p) (snd p) v) l m) x' y'
    = BitMatrix.get m x' y'.
Proof.
  induction l as [|q l IH]; intros Hfar m; simpl; auto.
  rewrite IH by (intros; apply Hfar; right; assumption).
  apply get_set_far, Hfar. left; reflexivity.
Qed.

Lemma in_range (n k : Z) : In k (range n) <-> 0 <= k < n.
Proof.
  unfold range. rewrite in_map_iff. split.
  - intros (i & <- & Hi). apply in_seq in Hi. lia.
  - intros Hk. exists (Z.to_nat k). split; [lia|]. apply in_seq. lia.
Qed.

Lemma range_NoDup (n : Z) : NoDup (range n).
Proof.
  unfold range. apply Injective_map_NoDup.
  - intros a b H. lia.
  - apply seq_NoDup.
Qed.

Lemma fillRect_writes x y w h v m :
  fillRect x y w h v m
  = fold_left (fun m p => BitMatrix.set m (fst p) (snd p) v)
      (rect_points x y w h) m.
Proof.
  unfold fillRect, rect_points.
  generalize (range h) as li. intros li. revert m.
  induction li as [|i li IH]; intros m; simpl; auto.
  rewrite fold_left_app, <- IH. f_equal.
  generalize (range w) as lj. intros lj. revert m.
  induction lj as [|j lj IHj]; intros m; simpl; auto.
Qed.

Lemma in_rect_points x y w h (q : Q * Q) :
  In q (rect_points x y w h) <->
  exists i j, 0 <= i < h /\ 0 <= j < w /\
              q = (x + inject_Z j, y + inject_Z i)%Q.
Proof.
  unfold rect_points. rewrite in_flat_map. split.
  - intros (i & Hi & Hq). apply in_map_iff in Hq.
    destruct Hq as (j & <- & Hj). apply in_range in Hi, Hj.
    exists i, j. auto.
  - intros (i & j & Hi & Hj & ->). exists i. split; [apply in_range, Hi|].
    apply in_map_iff. exists j. split; [reflexivity | apply in_range, Hj].
Qed.

Lemma drawBit_dims K row col mask m bit :
  same_dims m (drawBit K row col mask m bit).
Proof.
  unfold drawBit. destruct (JS.band mask (JS.shl 1 bit) =? 0).
  - eapply same_dims_trans; apply fillRect_dims.
  - apply fillRect_dims.
Qed.

Section Glyph.
Variable K : Constants.
Variables row col : Z.
Variable mask : JS.value.

#[local] Abbreviation U := (UNIT_DIM K).
#[local] Abbreviation cell_left := (inject_Z (startX K col)).
#[local] Abbreviation band_top b :=
  (inject_Z (startY K row + UNIT_DIM K * b * 2)).
#[local] Abbreviation notch_left :=
  (inject_Z (startX K col) + inject_Z (UNIT_DIM K) * (9 # 2))%Q.








End Glyph.




(** ** The pixels of a finder pattern *)

Lemma integer_comp (x x' : Q) :
  (x == x')%Q -> BitMatrix.integer x = BitMatrix.integer x'.
Proof.
  intros He. unfold BitMatrix.integer. rewrite (Qfloor_comp _ _ He).
  destruct (Qeq_bool x (inject_Z (Qfloor x'))) eqn:H1,
    (Qeq_bool x' (inject_Z (Qfloor x'))) eqn:H2; auto.
  - apply Qeq_bool_iff in H1. apply Qeq_bool_neq in H2.
    exfalso. apply H2.
    transitivity x; [symmetry; exact He | exact H1].
  - apply Qeq_bool_iff in H2. apply Qeq_bool_neq in H1.
    exfalso. apply H1.
    transitivity x'; [exact He | exact H2].
Qed.

Lemma get_comp (m : BitMatrix.t) (x y x' y' : Q) :
  (x == x')%Q -> (y == y')%Q -> BitMatrix.get m x y = BitMatrix.get m x' y'.
Proof.
  intros Hx Hy. unfold BitMatrix.get, BitMatrix.pixel.
  rewrite (integer_comp _ _ Hx), (integer_comp _ _ Hy). reflexivity.
Qed.

Lemma pixel_comp (m : BitMatrix.t) (x y x' y' : Q) :
  (x == x')%Q -> (y == y')%Q ->
  BitMatrix.pixel m x y = BitMatrix.pixel m x' y'.
Proof.
  intros Hx Hy. unfold BitMatrix.pixel.
  rewrite (integer_comp _ _ Hx), (integer_comp _ _ Hy). reflexivity.
Qed.

Lemma writtenb_written (l : list (Q * Q)) (x y : Q) :
  writtenb l x y = true <-> written l x y.
Proof.
  unfold writtenb, written. rewrite existsb_exists.
  split; intros (q & Hq & H); exists q; (split; [exact Hq|]).
  - apply andb_prop in H. destruct H as [H1 H2].
    split; apply Qeq_bool_iff; assumption.
  - destruct H as [H1 H2]. apply andb_true_intro.
    split; apply Qeq_bool_iff; assumption.
Qed.

(** After a run of writes of one colour a pixel has the colour if it
    was written, and is as before if not. *)
Lemma writes_get (v : Z) (l : list (Q * Q)) :
  forall (m : BitMatrix.t) (x y : Q),
    BitMatrix.pixel m x y <> None ->
    BitMatrix.get
      (fold_left (fun m p => BitMatrix.set m (fst p) (snd p) v) l m) x y
    = if writtenb l x y then v else BitMatrix.get m x y.
Proof.
  induction l as [|q l IH]; intros m x y Hp; simpl; [reflexivity|].
  rewrite IH by (rewrite pixel_set; exact Hp).
  destruct (writtenb l x y); [rewrite orb_true_r; reflexivity|].
  rewrite orb_false_r.
  destruct (Qeq_bool (fst q) x) eqn:Hx; simpl.
  - destruct (Qeq_bool (snd q) y) eqn:Hy; simpl.
    + apply Qeq_bool_iff in Hx, Hy.
      rewrite <- (get_comp _ _ _ _ _ Hx Hy). apply get_set_same.
      rewrite (pixel_comp _ _ _ _ _ Hx Hy). exact Hp.
    + apply get_set_far. intros [_ H]. apply Qeq_bool_neq in Hy. tauto.
  - apply get_set_far. intros [H _]. apply Qeq_bool_neq in Hx. tauto.
Qed.

Lemma fold_left_flat_map {A B C : Type} (f : A -> C -> A) (g : B -> list C)
  (l : list B) :
  forall a,
    fold_left f (flat_map g l) a
    = fold_left (fun a b => fold_left f (g b) a) l a.
Proof.
  induction l as [|b l IH]; intros a; simpl; auto.
  rewrite fold_left_app. apply IH.
Qed.

Lemma drawCircle_writes c r v m :
  drawCircle c r v m
  = fold_left (fun m p => BitMatrix.set m (fst p) (snd p) v)
      (circle_writes c r) m.
Proof.
  unfold drawCircle, circle_writes, circle_offsets.
  rewrite circle_loop_walk, fold_left_flat_map. reflexivity.
Qed.

Lemma drawFinderPattern_writes K c m :
  drawFinderPattern K c m
  = fold_left (fun m p => BitMatrix.set m (fst p) (snd p) 1)
      (finder_writes K c) m.
Proof.
  rewrite drawFinderPattern_fold. unfold finder_writes.
  rewrite fold_left_flat_map.
  generalize (finder_radii K) as l. intros l. revert m.
  induction l as [|r l IH]; intros m; simpl; auto.
  rewrite drawCircle_writes. apply IH.
Qed.







Lemma get_new (h w : Z) (x y : Q) :
  BitMatrix.get (BitMatrix.new h w) x y = 0.
Proof.
  unfold BitMatrix.get.
  destruct (BitMatrix.pixel (BitMatrix.new h w) x y) as [[a b]|];
    reflexivity.
Qed.




End WriterFacts.

(** * From the encoder to the rasterizer *)

Module Pipeline.
Import JS.

(** C4: the object [encode] returns carries its dimensions under the
    names [width] and [height]; the properties [rows] and [cols] that
    [render] reads are [undefined] on it, so [render] finds no row and
    column count in what [encode] produced. *)
Theorem encode_output_lacks_rows (s : jsstring) :
  exists o,
    Encoder.encode s = Normal o /\
    get_prop o "rows" = None /\
    get_prop o "cols" = None /\
    get_prop o "height" = Some (PNumber 8) /\
    get_prop o "width" = Some (PNumber 8) /\
    Writer.of_object o = None.
Proof. eexists. split; [reflexivity|]. repeat split. Qed.

End Pipeline.

(** * Further properties of the encoder *)

Module EncoderExtra.
Import JS Encoder EncoderFacts.

(** The table, entry by entry: the documented code on a mapped
    character, -1 on every other code below 128. *)
Lemma table_entries (c : N) :
  (c < 128)%N ->
  nth_error MAPPING_TABLE (N.to_nat c)
  = Some (if mapped c then symbol_code c else -1).
Proof.
  intros Hc.
  assert (Hall : forallb
            (fun k => match nth_error MAPPING_TABLE (N.to_nat k) with
                      | Some v =>
                          v =? (if mapped k then symbol_code k else -1)
                      | None => false
                      end)
            (map N.of_nat (seq 0 128)) = true) by (vm_compute; reflexivity).
  assert (Hin : In c (map N.of_nat (seq 0 128))).
  { apply in_map_iff. exists (N.to_nat c). split; [lia|].
    apply in_seq; lia. }
  rewrite forallb_forall in Hall. apply Hall in Hin.
  destruct (nth_error MAPPING_TABLE (N.to_nat c)) as [v|]; [|discriminate].
  apply Z.eqb_eq in Hin. congruence.
Qed.

Lemma mapped_below_128 (c : N) : mapped c = true -> (c < 128)%N.
Proof.
  unfold mapped, is_digit, is_upper, is_lower. intros Hm.
  repeat (apply orb_prop in Hm; destruct Hm as [Hm|Hm]);
    apply andb_prop in Hm; destruct Hm as [_ Hm];
    apply N.leb_le in Hm; lia.
Qed.

Lemma symbol_code_inj (c1 c2 : N) :
  mapped c1 = true -> mapped c2 = true ->
  symbol_code c1 = symbol_code c2 -> c1 = c2.
Proof.
  unfold mapped, symbol_code, is_digit, is_upper, is_lower.
  destruct (N.leb_spec 48 c1), (N.leb_spec c1 57), (N.leb_spec 65 c1),
    (N.leb_spec c1 90), (N.leb_spec 97 c1), (N.leb_spec c1 122);
    simpl; try discriminate;
    destruct (N.leb_spec 48 c2), (N.leb_spec c2 57), (N.leb_spec 65 c2),
      (N.leb_spec c2 90), (N.leb_spec 97 c2), (N.leb_spec c2 122);
    simpl; try discriminate; intros; lia.
Qed.

Lemma symbol_code_range (c : N) :
  mapped c = true -> 0 <= symbol_code c <= 61.
Proof.
  intros Hm. pose proof (symbol_code_ranges c) as (Hd & Hu & Hl).
  unfold mapped in Hm.
  apply orb_prop in Hm. destruct Hm as [Hm|Hm];
    [apply orb_prop in Hm; destruct Hm as [Hm|Hm]|].
  - specialize (Hd Hm). lia.
  - specialize (Hu Hm). lia.
  - specialize (Hl Hm). lia.
Qed.

(** X1: the table is a one-to-one correspondence between the 62 mapped
    characters and the codes 0 to 61: a mapped character has a code in
    that range, two mapped characters with the same entry are the same
    character, every code from 0 to 61 is the entry of a mapped character,
    and every other code unit below 128 has entry -1. *)
Theorem table_one_to_one :
  (forall c, mapped c = true ->
     exists v, nth_error MAPPING_TABLE (N.to_nat c) = Some v /\
               0 <= v <= 61) /\
  (forall c1 c2, mapped c1 = true -> mapped c2 = true ->
     nth_error MAPPING_TABLE (N.to_nat c1)
     = nth_error MAPPING_TABLE (N.to_nat c2) ->
     c1 = c2) /\
  (forall v, 0 <= v <= 61 ->
     exists c, mapped c = true /\
               nth_error MAPPING_TABLE (N.to_nat c) = Some v) /\
  (forall c, mapped c = false -> (c < 128)%N ->
     nth_error MAPPING_TABLE (N.to_nat c) = Some (-1)).
Proof.
  split; [|split; [|split]].
  - intros c Hm. exists (symbol_code c). split.
    + rewrite table_entries by (apply mapped_below_128, Hm).
      rewrite Hm. reflexivity.
    + apply symbol_code_range, Hm.
  - intros c1 c2 H1 H2 He.
    rewrite !table_entries in He by (apply mapped_below_128; assumption).
    rewrite H1, H2 in He. injection He as He.
    apply symbol_code_inj; assumption.
  - intros v Hv.
    assert (Hc : exists c, mapped c = true /\ symbol_code c = v).
    { destruct (Z_lt_le_dec v 26); [|destruct (Z_lt_le_dec v 52)].
      - exists (Z.to_N (v + 97)).
        unfold mapped, symbol_code, is_digit, is_upper, is_lower.
        repeat match goal with
               | |- context [(?a <=? ?b)%N] =>
                   destruct (N.leb_spec a b); simpl
               end; try lia; split; auto; lia.
      - exists (Z.to_N (v + 39)).
        unfold mapped, symbol_code, is_digit, is_upper, is_lower.
        repeat match goal with
               | |- context [(?a <=? ?b)%N] =>
                   destruct (N.leb_spec a b); simpl
               end; try lia; split; auto; lia.
      - exists (Z.to_N (v - 4)).
        unfold mapped, symbol_code, is_digit, is_upper, is_lower.
        repeat match goal with
               | |- context [(?a <=? ?b)%N] =>
                   destruct (N.leb_spec a b); simpl
               end; try lia; split; auto; lia. }
    destruct Hc as (c & Hm & <-). exists c. split; [exact Hm|].
    rewrite table_entries by (apply mapped_below_128, Hm).
    rewrite Hm. reflexivity.
  - intros c Hm Hc. rewrite table_entries by exact Hc.
    rewrite Hm. reflexivity.
Qed.

Lemma encode_eq_data (s1 s2 : jsstring) :
  encode s1 = encode s2 <-> encode_data s1 = encode_data s2.
Proof.
  unfold encode. split.
  - intros H. injection H as H. exact H.
  - intros H. rewrite H. reflexivity.
Qed.

(** Two grids are equal when their cells are, one by one. *)
Lemma encode_data_ext (s1 s2 : jsstring) :
  (forall j, (j < 64)%nat -> cell s1 j = cell s2 j) ->
  encode_data s1 = encode_data s2.
Proof.
  intros H. apply (nth_ext _ _ 0 0).
  - rewrite !encode_data_length. reflexivity.
  - intros j Hj. rewrite encode_data_length in Hj.
    rewrite !encode_data_nth by exact Hj. apply H, Hj.
Qed.

Lemma stored_mapped_inj (c1 c2 : N) :
  mapped c1 = true -> mapped c2 = true ->
  stored (Some c1) = stored (Some c2) -> c1 = c2.
Proof.
  intros H1 H2 He. rewrite !table_on_mapped in He by assumption.
  apply symbol_code_inj; assumption.
Qed.

(** X2: on contents of at most 62 mapped characters [encode] is
    one-to-one: two such contents with the same grid are the same
    content. *)
Theorem encode_injective (s1 s2 : jsstring) :
  (length s1 <= 62)%nat -> (length s2 <= 62)%nat ->
  forallb mapped s1 = true -> forallb mapped s2 = true ->
  encode s1 = encode s2 -> s1 = s2.
Proof.
  intros L1 L2 M1 M2 He. apply encode_eq_data in He.
  assert (Hc : forall j, (j < 64)%nat -> cell s1 j = cell s2 j).
  { intros j Hj. rewrite <- !encode_data_nth by exact Hj.
    rewrite He. reflexivity. }
  assert (Hlen : length s1 = length s2).
  { specialize (Hc 1%nat ltac:(lia)). cbn [cell] in Hc.
    rewrite !Z.mod_small in Hc by lia. lia. }
  apply (nth_ext _ _ 0%N 0%N); [exact Hlen|].
  intros i Hi.
  specialize (Hc (S (S i)) ltac:(lia)). cbn [cell] in Hc.
  rewrite <- Hlen in Hc.
  replace (i <? length s1)%nat with true in Hc
    by (symmetry; apply Nat.ltb_lt; exact Hi).
  unfold charCodeAt in Hc.
  rewrite (nth_error_nth' s1 0%N Hi) in Hc.
  rewrite (nth_error_nth' s2 0%N) in Hc by lia.
  rewrite forallb_forall in M1, M2.
  apply stored_mapped_inj in Hc; auto.
  - apply M1, nth_In, Hi.
  - apply M2, nth_In. lia.
Qed.

Lemma encode_injective_witness :
  encode (of_string "Hi9") = encode (of_string "Hi9") /\
  encode (of_string "Hi9") <> encode (of_string "Hi8").
Proof.
  split; [reflexivity|].
  intros He.
  assert (H : of_string "Hi9" = of_string "Hi8").
  { apply encode_injective; [simpl; lia | simpl; lia | reflexivity
                             | reflexivity | exact He]. }
  discriminate H.
Defined.

(** X3: every cell of the grid of a content of at most 62 mapped
    characters lies in [0, 64): it fits the six bits of a glyph. *)
Theorem encode_cells_six_bits (s : jsstring) :
  (length s <= 62)%nat ->
  forallb mapped s = true ->
  exists o,
    encode s = Normal o /\
    length (cells o) = 64%nat /\
    Forall (fun v => 0 <= v < 64) (cells o).
Proof.
  intros Hlen Hm.
  destruct (cells_encode s) as (o & Ho & Hc).
  exists o. rewrite Hc. split; [exact Ho|].
  split; [apply encode_data_length|].
  apply Forall_forall. intros v Hv.
  apply (In_nth _ _ 0) in Hv. destruct Hv as (j & Hj & <-).
  rewrite encode_data_length in Hj.
  rewrite encode_data_nth by exact Hj.
  destruct j as [|[|i]]; cbn [cell].
  - unfold VERSION. lia.
  - rewrite Z.mod_small by lia. lia.
  - destruct (Nat.ltb_spec i (length s)) as [Hi|Hi]; [|lia].
    unfold charCodeAt. rewrite (nth_error_nth' s 0%N Hi).
    rewrite forallb_forall in Hm.
    assert (Hmc : mapped (nth i s 0%N) = true) by (apply Hm, nth_In, Hi).
    rewrite table_on_mapped by exact Hmc.
    pose proof (symbol_code_range _ Hmc). lia.
Qed.

Lemma encode_cells_six_bits_witness :
  exists o,
    encode (of_string "Zz09") = Normal o /\
    Forall (fun v => 0 <= v < 64) (cells o).
Proof.
  destruct (encode_cells_six_bits (of_string "Zz09")) as (o & Ho & _ & H);
    [simpl; lia | reflexivity |].
  exists o. split; assumption.
Defined.

(** X4: the grid depends on the content only through its length modulo
    2^16 and its first 62 characters: two contents that agree on these
    have the same grid, whatever follows. *)
Theorem encode_ignores_overflow (s1 s2 : jsstring) :
  Z.of_nat (length s1) mod 65536 = Z.of_nat (length s2) mod 65536 ->
  firstn 62 s1 = firstn 62 s2 ->
  encode s1 = encode s2.
Proof.
  intros Hlen Hfst. apply encode_eq_data, encode_data_ext.
  intros j Hj. destruct j as [|[|i]]; cbn [cell].
  - reflexivity.
  - exact Hlen.
  - assert (Hi : (i < 62)%nat) by lia.
    assert (Hl : Nat.min 62 (length s1) = Nat.min 62 (length s2)).
    { rewrite <- !length_firstn, Hfst. reflexivity. }
    assert (Hn : nth_error s1 i = nth_error s2 i).
    { assert (Hf : forall s : jsstring,
                nth_error (firstn 62 s) i = nth_error s i).
      { intros s. rewrite nth_error_firstn.
        replace (i <? 62)%nat with true
          by (symmetry; apply Nat.ltb_lt; exact Hi).
        reflexivity. }
      rewrite <- (Hf s1), <- (Hf s2), Hfst. reflexivity. }
    replace (i <? length s2)%nat with (i <? length s1)%nat.
    + unfold charCodeAt. rewrite Hn. reflexivity.
    + destruct (Nat.ltb_spec i (length s1)), (Nat.ltb_spec i (length s2));
        auto; lia.
Qed.

Lemma encode_ignores_overflow_witness :
  long_a <> long_b /\ encode long_a = encode long_b.
Proof.
  split; [discriminate|].
  apply encode_ignores_overflow; reflexivity.
Defined.

Lemma stored_fold_high (c : N) :
  stored (Some (fold_high c)) = stored (Some c).
Proof.
  unfold fold_high. destruct (N.leb_spec 128 c) as [Hc|Hc]; [|reflexivity].
  unfold stored, Int16Array_get.
  assert (Hnone : nth_error MAPPING_TABLE (N.to_nat c) = None).
  { apply nth_error_None. change (length MAPPING_TABLE) with 128%nat. lia. }
  rewrite Hnone. reflexivity.
Qed.

(** X5: a code unit from 128 on is encoded exactly like the letter a:
    replacing every such code unit of a content by a leaves the grid
    unchanged. *)
Theorem encode_high_as_a (s : jsstring) :
  encode (map fold_high s) = encode s.
Proof.
  apply encode_eq_data, encode_data_ext.
  intros j Hj. destruct j as [|[|i]]; cbn [cell].
  - reflexivity.
  - rewrite length_map. reflexivity.
  - rewrite length_map.
    destruct (Nat.ltb_spec i (length s)) as [Hi|Hi]; [|reflexivity].
    unfold charCodeAt. rewrite nth_error_map.
    rewrite (nth_error_nth' s 0%N Hi). simpl.
    apply stored_fold_high.
Qed.

End EncoderExtra.

(** * Further properties of the rasterizer *)

Module WriterExtra.
Import Writer WriterFacts.

(** ** Pixels at integer coordinates *)

Lemma integer_inject_Z (a : Z) : BitMatrix.integer (inject_Z a) = Some a.
Proof.
  unfold BitMatrix.integer. rewrite Qfloor_Z.
  rewrite (proj2 (Qeq_bool_iff _ _) (Qeq_refl _)). reflexivity.
Qed.

Lemma pixel_inject_Z (m : BitMatrix.t) (a b : Z) :
  BitMatrix.pixel m (inject_Z a) (inject_Z b)
  = if BitMatrix.inside m a b then Some (a, b) else None.
Proof.
  unfold BitMatrix.pixel. rewrite !integer_inject_Z. reflexivity.
Qed.

Lemma get_outside (m : BitMatrix.t) (x y : Q) :
  BitMatrix.pixel m x y = None -> BitMatrix.get m x y = 0.
Proof. intros H. unfold BitMatrix.get. rewrite H. reflexivity. Qed.

Lemma inside_same_dims (m m' : BitMatrix.t) (a b : Z) :
  same_dims m m' -> BitMatrix.inside m' a b = BitMatrix.inside m a b.
Proof.
  intros [Hh Hw]. unfold BitMatrix.inside. rewrite Hh, Hw. reflexivity.
Qed.

(** A run of writes that never addresses a pixel leaves it as it was,
    also when the coordinates address no pixel at all. *)
Lemma writes_get_any (v : Z) (l : list (Q * Q)) (m : BitMatrix.t)
  (x y : Q) :
  writtenb l x y = false ->
  BitMatrix.get
    (fold_left (fun m p => BitMatrix.set m (fst p) (snd p) v) l m) x y
  = BitMatrix.get m x y.
Proof.
  intros Hw. apply writes_far. intros q Hq [Hx Hy].
  assert (Ht : writtenb l x y = true).
  { apply writtenb_written. exists q. auto. }
  congruence.
Qed.

(** ** Rectangles *)

Lemma rect_written (x y : Q) (w h : Z) (px py : Q) :
  written (rect_points x y w h) px py <->
  exists i j, 0 <= i < h /\ 0 <= j < w /\
              (x + inject_Z j == px)%Q /\ (y + inject_Z i == py)%Q.
Proof.
  unfold written. split.
  - intros (q & Hq & Hx & Hy). apply in_rect_points in Hq.
    destruct Hq as (i & j & Hi & Hj & ->). exists i, j. auto.
  - intros (i & j & Hi & Hj & Hx & Hy).
    exists (x + inject_Z j, y + inject_Z i)%Q. split; [|auto].
    apply in_rect_points. exists i, j. auto.
Qed.

Lemma rect_written_int (x y : Q) (x0 y0 w h a b : Z) :
  (x == inject_Z x0)%Q -> (y == inject_Z y0)%Q ->
  (written (rect_points x y w h) (inject_Z a) (inject_Z b) <->
   (x0 <= a < x0 + w /\ y0 <= b < y0 + h)).
Proof.
  intros Hx Hy. rewrite rect_written. split.
  - intros (i & j & Hi & Hj & Ha & Hb).
    rewrite Hx, <- inject_Z_plus in Ha.
    rewrite Hy, <- inject_Z_plus in Hb.
    pose proof (proj1 (inject_Z_injective _ _) Ha).
    pose proof (proj1 (inject_Z_injective _ _) Hb). lia.
  - intros [Ha Hb]. exists (b - y0), (a - x0).
    split; [lia|]. split; [lia|].
    rewrite Hx, Hy, <- !inject_Z_plus.
    split; apply (proj2 (inject_Z_injective _ _)); lia.
Qed.

(** The test of [rect_written_int], as a boolean. *)
Lemma rect_writtenb_int (x y : Q) (x0 y0 w h a b : Z) :
  (x == inject_Z x0)%Q -> (y == inject_Z y0)%Q ->
  writtenb (rect_points x y w h) (inject_Z a) (inject_Z b)
  = (x0 <=? a) && (a <? x0 + w) && (y0 <=? b) && (b <? y0 + h).
Proof.
  intros Hx Hy.
  pose proof (rect_written_int x y x0 y0 w h a b Hx Hy) as H.
  rewrite <- writtenb_written in H.
  destruct (writtenb (rect_points x y w h) (inject_Z a) (inject_Z b)).
  - destruct (proj1 H eq_refl) as [Ha Hb]. symmetry.
    repeat (apply andb_true_intro; split);
      first [apply Z.leb_le | apply Z.ltb_lt]; lia.
  - symmetry. apply not_true_is_false. intros Ht.
    repeat (apply andb_prop in Ht; destruct Ht as [Ht ?]).
    assert (Hf : false = true).
    { apply H. repeat match goal with
             | H : (_ <=? _) = true |- _ => apply Z.leb_le in H
             | H : (_ <? _) = true |- _ => apply Z.ltb_lt in H
             end. lia. }
    discriminate.
Qed.

(** What [fillRect] leaves in a pixel, the corner of the rectangle
    being at integer coordinates up to equality of numbers. *)
Lemma fillRect_get_int (x y : Q) (x0 y0 w h v a b : Z) (m : BitMatrix.t) :
  (x == inject_Z x0)%Q -> (y == inject_Z y0)%Q ->
  BitMatrix.get (fillRect x y w h v m) (inject_Z a) (inject_Z b)
  = if (x0 <=? a) && (a <? x0 + w) && (y0 <=? b) && (b <? y0 + h)
       && BitMatrix.inside m a b
    then v else BitMatrix.get m (inject_Z a) (inject_Z b).
Proof.
  intros Hx Hy. rewrite fillRect_writes.
  destruct (BitMatrix.inside m a b) eqn:Hin.
  - rewrite writes_get by (rewrite pixel_inject_Z, Hin; discriminate).
    rewrite (rect_writtenb_int x y x0 y0) by assumption.
    rewrite andb_true_r. reflexivity.
  - rewrite andb_false_r. rewrite <- fillRect_writes.
    rewrite !get_outside; auto.
    + rewrite pixel_inject_Z, Hin. reflexivity.
    + rewrite (pixel_same_dims m) by apply fillRect_dims.
      rewrite pixel_inject_Z, Hin. reflexivity.
Qed.

(** X6: [fillRect] with its corner at the integer coordinates
    [(x0, y0)] sets to the colour exactly the pixels of the bitmap in
    columns [x0 .. x0 + width - 1] and rows [y0 .. y0 + height - 1], and
    leaves every other pixel as it was; with a width or a height of 0 or
    less it changes nothing. *)
Theorem fillRect_fills_exactly (x0 y0 w h v a b : Z) (m : BitMatrix.t) :
  BitMatrix.get (fillRect (inject_Z x0) (inject_Z y0) w h v m)
    (inject_Z a) (inject_Z b)
  = if (x0 <=? a) && (a <? x0 + w) && (y0 <=? b) && (b <? y0 + h)
       && BitMatrix.inside m a b
    then v else BitMatrix.get m (inject_Z a) (inject_Z b).
Proof. apply fillRect_get_int; reflexivity. Qed.

(** ** The walk of [drawCircle] *)

Lemma Qle_bool_false (a b : Q) : Qle_bool a b = false -> (b < a)%Q.
Proof.
  intros H. apply Qnot_le_lt. intros Hle.
  apply Qle_bool_iff in Hle. congruence.
Qed.

(** The loop keeps [dx = 1 + 2 (r - x)], [dy = 1 + 2 y] and
    [err = (x - 1)^2 + y^2 - r^2]; with them every offset it produces lies
    in the octant [0 <= y <= x <= r], on or outside the circle of radius
    [r], and, off the axis, with its inner neighbour [(x - 1, y - 1)] on
    or inside that circle. *)
Lemma circle_walk_inv (fuel : nat) (r : Q) :
  forall x y dx dy err : Q,
    (dx == 1 + 2 * (r - x))%Q ->
    (dy == 1 + 2 * y)%Q ->
    (err == (x - 1) * (x - 1) + y * y - r * r)%Q ->
    (0 <= y)%Q -> (x <= r)%Q ->
    (r * r <= x * x + y * y)%Q ->
    (y == 0 \/ 1 <= y)%Q ->
    (y == 0 -> x == r \/ x < 0)%Q ->
    (1 <= y -> y <= x ->
     (x - 1) * (x - 1) + (y - 1) * (y - 1) <= r * r)%Q ->
    forall o, In o (circle_walk fuel r x y dx dy err) ->
      (0 <= snd o /\ snd o <= fst o /\ fst o <= r /\
       r * r <= fst o * fst o + snd o * snd o /\
       (snd o == 0 -> fst o == r) /\
       (1 <= snd o ->
        (fst o - 1) * (fst o - 1) + (snd o - 1) * (snd o - 1) <= r * r))%Q.
Proof.
  induction fuel as [|f IH];
    intros x y dx dy err Hdx Hdy Herr Hy Hx Hout Hy01 Hax Hin o Ho;
    simpl in Ho; [contradiction|].
  destruct (Qle_bool y x) eqn:Hg; [|contradiction].
  apply Qle_bool_iff in Hg.
  destruct Ho as [<-|Ho].
  - simpl. repeat split; auto.
    + intros H0. destruct (Hax H0) as [H|H]; [exact H|]. lra.
  - destruct (Qle_bool err 0) eqn:He.
    + apply Qle_bool_iff in He.
      apply (IH x (y + 1) dx (dy + 2) (err + dy))%Q; auto;
        try lra; try nra.
    + apply Qle_bool_false in He.
      apply (IH (x - 1) y (dx + 2) dy (err + (dx + 2 - 2 * r)))%Q; auto;
        try lra; try nra.
Qed.

(** The shape of the walk, for the walk that [drawCircle] makes. *)
Lemma circle_offsets_inv (r : Q) (o : Q * Q) :
  In o (circle_offsets r) ->
  (0 <= snd o /\ snd o <= fst o /\ fst o <= r /\
   r * r <= fst o * fst o + snd o * snd o /\
   (snd o == 0 -> fst o == r) /\
   (1 <= snd o ->
    (fst o - 1) * (fst o - 1) + (snd o - 1) * (snd o - 1) <= r * r))%Q.
Proof.
  apply circle_walk_inv; try lra; try nra.
Qed.

(** X7: every offset [(x, y)] of the walk of [drawCircle] for a radius
    [r] lies in the octant [0 <= y <= x <= r] and never inside the circle:
    [r^2 <= x^2 + y^2].  The only offset on the axis is [(r, 0)]; off the
    axis the neighbour [(x - 1, y - 1)] is on or inside the circle, so the
    outline stays within one pixel, diagonally, of the circle. *)
Theorem circle_outline_shape (r x y : Q) :
  In (x, y) (circle_offsets r) ->
  (0 <= y /\ y <= x /\ x <= r /\
   r * r <= x * x + y * y /\
   (y == 0 -> x == r) /\
   (1 <= y -> (x - 1) * (x - 1) + (y - 1) * (y - 1) <= r * r))%Q.
Proof. intros H. apply (circle_offsets_inv r (x, y) H). Qed.

Lemma circle_outline_shape_witness :
  In (4, 4)%Q (circle_offsets 5) /\
  (5 * 5 <= 4 * 4 + 4 * 4 /\
   (4 - 1) * (4 - 1) + (4 - 1) * (4 - 1) <= 5 * 5)%Q.
Proof.
  assert (H : In (4, 4)%Q (circle_offsets 5))
    by (vm_compute; repeat (first [left; reflexivity | right])).
  split; [exact H|].
  destruct (circle_outline_shape 5 4 4 H) as (_ & _ & _ & H1 & _ & H2).
  split; [exact H1|]. apply H2. discriminate.
Defined.

(** ** Where circles and patterns write *)

Lemma circle_writes_inv (c : Point.t) (r : Q) (q : Q * Q) :
  In q (circle_writes c r) ->
  exists x y,
    In q (mirrors c x y) /\
    (0 <= y /\ y <= x /\ x <= r /\ r * r <= x * x + y * y)%Q.
Proof.
  unfold circle_writes. intros H. apply in_flat_map in H.
  destruct H as ([x y] & Ho & Hq). exists x, y. split; [exact Hq|].
  destruct (circle_offsets_inv r (x, y) Ho) as (H1 & H2 & H3 & H4 & _).
  simpl in *. auto.
Qed.

(** The writes of a circle stay in the square of half side [r] about
    the centre. *)
Lemma circle_writes_box (c : Point.t) (r : Q) (q : Q * Q) :
  In q (circle_writes c r) ->
  (Point.x c - r <= fst q /\ fst q <= Point.x c + r /\
   Point.y c - r <= snd q /\ snd q <= Point.y c + r)%Q.
Proof.
  intros H. apply circle_writes_inv in H.
  destruct H as (x & y & Hq & H1 & H2 & H3 & _).
  simpl in Hq.
  repeat (destruct Hq as [<-|Hq]); try contradiction; simpl;
    repeat split; lra.
Qed.

(** For a radius above 0 they stay off the centre. *)
Lemma circle_writes_off_centre (c : Point.t) (r : Q) (q : Q * Q) :
  (0 < r)%Q ->
  In q (circle_writes c r) ->
  ~ ((fst q == Point.x c)%Q /\ (snd q == Point.y c)%Q).
Proof.
  intros Hr H. apply circle_writes_inv in H.
  destruct H as (x & y & Hq & H1 & H2 & H3 & H4).
  assert (Hx : (0 < x)%Q) by nra.
  simpl in Hq.
  repeat (destruct Hq as [<-|Hq]); try contradiction; simpl;
    intros [Ha Hb]; lra.
Qed.

Lemma circles_writes (c : Point.t) (v : Z) (l : list Q) :
  forall m,
    fold_left (fun m i => drawCircle c i v m) l m
    = fold_left (fun m p => BitMatrix.set m (fst p) (snd p) v)
        (flat_map (circle_writes c) l) m.
Proof.
  induction l as [|r l IH]; intros m; simpl; [reflexivity|].
  rewrite fold_left_app, <- drawCircle_writes. apply IH.
Qed.

Lemma drawAlignmentPattern_writes K c m :
  drawAlignmentPattern K c m
  = fold_left (fun m p => BitMatrix.set m (fst p) (snd p) 1)
      (flat_map (circle_writes c) (alignment_radii K)) m.
Proof.
  unfold drawAlignmentPattern, for_le, alignment_radii.
  apply (circles_writes c 1).
Qed.

(** The counter of a loop stays between its bounds. *)
Lemma loop_values_bounds (hi : Q) (fuel : nat) :
  forall (lo v : Q),
    In v (loop_values fuel lo hi) -> (lo <= v /\ v <= hi)%Q.
Proof.
  induction fuel as [|f IH]; intros lo v H; simpl in H; [contradiction|].
  destruct (Qle_bool lo hi) eqn:Hg; [|contradiction].
  apply Qle_bool_iff in Hg.
  destruct H as [<-|H]; [lra|].
  apply IH in H. lra.
Qed.

Lemma finder_radii_bounds K (v : Q) :
  In v (finder_radii K) ->
  (0 <= v /\ v <= inject_Z (FINDER_RADIUS K))%Q.
Proof.
  unfold finder_radii. intros H. apply in_app_or in H.
  destruct H as [H|H]; apply loop_values_bounds in H;
    unfold r1, r2, r3 in H.
  - destruct H as [H0 H1]. split; [exact H0|].
    assert (H7 : (v * 7 <= inject_Z (FINDER_RADIUS K) * 3)%Q).
    { apply (Qmult_le_r _ _ 7) in H1; [|reflexivity].
      revert H1. field_simplify (inject_Z (FINDER_RADIUS K) * 3 / 7 * 7)%Q.
      intros H1. lra. }
    lra.
  - destruct H as [H0 H1]. split; [|exact H1].
    assert (H7 : (inject_Z (FINDER_RADIUS K) * 5 + 7 <= v * 7)%Q).
    { apply (Qmult_le_r _ _ 7) in H0; [|reflexivity].
      revert H0.
      field_simplify ((inject_Z (FINDER_RADIUS K) * 5 / 7 + 1) * 7)%Q.
      intros H0. lra. }
    lra.
Qed.

Lemma alignment_radii_bounds K (v : Q) :
  In v (alignment_radii K) ->
  (1 <= v /\ v <= inject_Z (FINDER_RADIUS K))%Q.
Proof.
  unfold alignment_radii. intros H. apply loop_values_bounds in H.
  unfold r1, r2 in H. destruct H as [H0 H1].
  assert (Ha : (inject_Z (FINDER_RADIUS K) * 3 + 7 <= v * 7)%Q).
  { apply (Qmult_le_r _ _ 7) in H0; [|reflexivity].
    revert H0.
    field_simplify ((inject_Z (FINDER_RADIUS K) * 3 / 7 + 1) * 7)%Q.
    intros H0. lra. }
  assert (Hb : (v * 7 <= inject_Z (FINDER_RADIUS K) * 5)%Q).
  { apply (Qmult_le_r _ _ 7) in H1; [|reflexivity].
    revert H1. field_simplify (inject_Z (FINDER_RADIUS K) * 5 / 7 * 7)%Q.
    intros H1. lra. }
  lra.
Qed.

Lemma writes_outside_box (v : Z) (l : list (Q * Q)) (m : BitMatrix.t)
  (x0 x1 y0 y1 px py : Q) :
  (forall q, In q l ->
     (x0 <= fst q /\ fst q <= x1 /\ y0 <= snd q /\ snd q <= y1)%Q) ->
  (px < x0 \/ x1 < px \/ py < y0 \/ y1 < py)%Q ->
  BitMatrix.get
    (fold_left (fun m p => BitMatrix.set m (fst p) (snd p) v) l m) px py
  = BitMatrix.get m px py.
Proof.
  intros Hbox Hout. apply writes_far. intros q Hq [Hx Hy].
  specialize (Hbox q Hq). lra.
Qed.

(** X8: [drawCircle] changes no pixel outside the square of half side
    [r] about the centre. *)
Theorem drawCircle_within_box (c : Point.t) (r : Q) (v : Z)
  (m : BitMatrix.t) (px py : Q) :
  (px < Point.x c - r \/ Point.x c + r < px \/
   py < Point.y c - r \/ Point.y c + r < py)%Q ->
  BitMatrix.get (drawCircle c r v m) px py = BitMatrix.get m px py.
Proof.
  intros Hout. rewrite drawCircle_writes.
  apply (writes_outside_box v _ m _ _ _ _ px py (circle_writes_box c r)).
  exact Hout.
Qed.

Lemma drawCircle_within_box_witness :
  BitMatrix.get (drawCircle (Point.make 5 5) 3 1 (BitMatrix.new 11 11)) 9 5
  = BitMatrix.get (BitMatrix.new 11 11) 9 5.
Proof.
  apply drawCircle_within_box. simpl. right. left. reflexivity.
Defined.

Lemma first_offset (r : Q) : (0 <= r)%Q -> In (r, 0%Q) (circle_offsets r).
Proof.
  intros Hr. unfold circle_offsets, circle_fuel.
  assert (H0 : 0 <= Qfloor r).
  { rewrite <- (Qfloor_Z 0). apply Qfloor_resp_le. exact Hr. }
  destruct (Z.to_nat (Qfloor r + 1)) as [|n] eqn:Hn; [lia|].
  simpl. apply Qle_bool_iff in Hr. rewrite Hr. left. reflexivity.
Qed.

Lemma drawCircle_sets (c : Point.t) (r : Q) (v : Z) (m : BitMatrix.t)
  (x y px py : Q) (p : Q * Q) :
  In (x, y) (circle_offsets r) ->
  In p (mirrors c x y) ->
  (fst p == px)%Q -> (snd p == py)%Q ->
  BitMatrix.pixel m px py <> None ->
  BitMatrix.get (drawCircle c r v m) px py = v.
Proof.
  intros Ho Hp Hx Hy Hpix.
  rewrite <- (get_comp _ _ _ _ _ Hx Hy).
  unfold drawCircle. eapply circle_loop_sets; eauto.
  rewrite (pixel_comp _ _ _ _ _ Hx Hy). exact Hpix.
Qed.

(** X9: for a radius [r >= 0], [drawCircle] sets the four points of the
    circle on the axes through the centre, [(cx + r, cy)], [(cx - r, cy)],
    [(cx, cy + r)] and [(cx, cy - r)], each one that is a pixel of the
    bitmap. *)
Theorem drawCircle_axis_points (c : Point.t) (r : Q) (v : Z)
  (m : BitMatrix.t) :
  (0 <= r)%Q ->
  let m' := drawCircle c r v m in
  let cx := Point.x c in
  let cy := Point.y c in
  (BitMatrix.pixel m (cx + r)%Q cy <> None ->
   BitMatrix.get m' (cx + r)%Q cy = v) /\
  (BitMatrix.pixel m (cx - r)%Q cy <> None ->
   BitMatrix.get m' (cx - r)%Q cy = v) /\
  (BitMatrix.pixel m cx (cy + r)%Q <> None ->
   BitMatrix.get m' cx (cy + r)%Q = v) /\
  (BitMatrix.pixel m cx (cy - r)%Q <> None ->
   BitMatrix.get m' cx (cy - r)%Q = v).
Proof.
  intros Hr m' cx cy. pose proof (first_offset r Hr) as Ho.
  repeat split; intros Hp; subst m'.
  - apply (drawCircle_sets c r v m r 0 _ _ (cx + r, cy + 0)%Q); auto;
      simpl; try tauto; lra.
  - apply (drawCircle_sets c r v m r 0 _ _ (cx - r, cy + 0)%Q); auto;
      simpl; try tauto; lra.
  - apply (drawCircle_sets c r v m r 0 _ _ (cx + 0, cy + r)%Q); auto;
      simpl; try tauto; lra.
  - apply (drawCircle_sets c r v m r 0 _ _ (cx - 0, cy - r)%Q); auto;
      simpl; try tauto; lra.
Qed.

Lemma drawCircle_axis_points_witness :
  let m' := drawCircle (Point.make 5 5) 3 1 (BitMatrix.new 11 11) in
  BitMatrix.get m' (5 + 3)%Q 5 = 1 /\ BitMatrix.get m' 5 (5 - 3)%Q = 1.
Proof.
  intros m'.
  pose proof (drawCircle_axis_points (Point.make 5 5) 3 1
                (BitMatrix.new 11 11) ltac:(discriminate)) as (H1 & _ & _ & H4).
  split; [apply H1 | apply H4]; vm_compute; discriminate.
Defined.

(** What a run of writes of the colour 1 can do to a pixel. *)
Lemma writes_only_set (l : list (Q * Q)) (m : BitMatrix.t) (px py : Q) :
  let m' := fold_left (fun m p => BitMatrix.set m (fst p) (snd p) 1) l m in
  BitMatrix.get m' px py = 1 \/
  BitMatrix.get m' px py = BitMatrix.get m px py.
Proof.
  intros m'. subst m'.
  destruct (BitMatrix.pixel m px py) eqn:Hp.
  - rewrite writes_get by congruence.
    destruct (writtenb l px py); [left | right]; reflexivity.
  - right. rewrite !get_outside; auto.
    rewrite (pixel_same_dims m); [exact Hp|].
    apply fold_dims. intros; apply set_dims.
Qed.

(** X10: the two registration patterns only ever set pixels: after
    [drawFinderPattern] or [drawAlignmentPattern] a pixel is 1 or is what
    it was, so a pixel that was set stays set. *)
Theorem patterns_only_set (K : Constants) (c : Point.t) (m : BitMatrix.t)
  (px py : Q) :
  (BitMatrix.get (drawFinderPattern K c m) px py = 1 \/
   BitMatrix.get (drawFinderPattern K c m) px py = BitMatrix.get m px py) /\
  (BitMatrix.get (drawAlignmentPattern K c m) px py = 1 \/
   BitMatrix.get (drawAlignmentPattern K c m) px py
   = BitMatrix.get m px py).
Proof.
  rewrite drawFinderPattern_writes, drawAlignmentPattern_writes.
  split; apply writes_only_set.
Qed.

Lemma pattern_writes_box (c : Point.t) (R : Q) (l : list Q) (q : Q * Q) :
  (forall v, In v l -> (v <= R)%Q) ->
  In q (flat_map (circle_writes c) l) ->
  (Point.x c - R <= fst q /\ fst q <= Point.x c + R /\
   Point.y c - R <= snd q /\ snd q <= Point.y c + R)%Q.
Proof.
  intros Hl Hq. apply in_flat_map in Hq. destruct Hq as (v & Hv & Hq).
  apply circle_writes_box in Hq. specialize (Hl v Hv). lra.
Qed.

Lemma finder_far (K : Constants) (c : Point.t) (m : BitMatrix.t)
  (px py : Q) :
  let R := inject_Z (FINDER_RADIUS K) in
  (px < Point.x c - R \/ Point.x c + R < px \/
   py < Point.y c - R \/ Point.y c + R < py)%Q ->
  BitMatrix.get (drawFinderPattern K c m) px py = BitMatrix.get m px py.
Proof.
  intros R Hout. rewrite drawFinderPattern_writes.
  apply (writes_outside_box 1 _ m _ _ _ _ px py
           (fun q => pattern_writes_box c R (finder_radii K) q
                       (fun v Hv => proj2 (finder_radii_bounds K v Hv)))).
  exact Hout.
Qed.

Lemma alignment_far (K : Constants) (c : Point.t) (m : BitMatrix.t)
  (px py : Q) :
  let R := inject_Z (FINDER_RADIUS K) in
  (px < Point.x c - R \/ Point.x c + R < px \/
   py < Point.y c - R \/ Point.y c + R < py)%Q ->
  BitMatrix.get (drawAlignmentPattern K c m) px py = BitMatrix.get m px py.
Proof.
  intros R Hout. rewrite drawAlignmentPattern_writes.
  apply (writes_outside_box 1 _ m _ _ _ _ px py
           (fun q => pattern_writes_box c R (alignment_radii K) q
                       (fun v Hv =>
                          proj2 (alignment_radii_bounds K v Hv)))).
  exact Hout.
Qed.

(** X11: neither pattern changes a pixel outside the square of half
    side FINDER_RADIUS about its centre. *)
Theorem patterns_within_radius (K : Constants) (c : Point.t)
  (m : BitMatrix.t) (px py : Q) :
  let R := inject_Z (FINDER_RADIUS K) in
  (px < Point.x c - R \/ Point.x c + R < px \/
   py < Point.y c - R \/ Point.y c + R < py)%Q ->
  BitMatrix.get (drawFinderPattern K c m) px py = BitMatrix.get m px py /\
  BitMatrix.get (drawAlignmentPattern K c m) px py = BitMatrix.get m px py.
Proof.
  intros R Hout. split; [apply finder_far | apply alignment_far]; exact Hout.
Qed.

Lemma patterns_within_radius_witness :
  let c := Point.make 20 20 in
  let m := BitMatrix.new 60 60 in
  BitMatrix.get (drawFinderPattern layout_r14 c m) 35 20
  = BitMatrix.get m 35 20.
Proof.
  intros c m.
  apply (proj1 (patterns_within_radius layout_r14 c m 35 20
                  ltac:(right; left; reflexivity))).
Defined.

Lemma alignment_off_centre (K : Constants) (c : Point.t) (m : BitMatrix.t) :
  BitMatrix.get (drawAlignmentPattern K c m) (Point.x c) (Point.y c)
  = BitMatrix.get m (Point.x c) (Point.y c).
Proof.
  rewrite drawAlignmentPattern_writes. apply writes_far.
  intros q Hq. apply in_flat_map in Hq. destruct Hq as (v & Hv & Hq).
  apply (circle_writes_off_centre c v q); [|exact Hq].
  apply alignment_radii_bounds in Hv. lra.
Qed.

Lemma finder_sets_centre (K : Constants) (c : Point.t) (m : BitMatrix.t) :
  0 <= FINDER_RADIUS K ->
  BitMatrix.pixel m (Point.x c) (Point.y c) <> None ->
  BitMatrix.get (drawFinderPattern K c m) (Point.x c) (Point.y c) = 1.
Proof.
  intros HR Hp. rewrite drawFinderPattern_fold.
  assert (H0 : In 0%Q (finder_radii K)).
  { unfold finder_radii. apply in_or_app. left.
    assert (Hr1 : (0 <= r1 K)%Q).
    { unfold r1. rewrite Zle_Qle in HR.
      change (inject_Z 0) with 0%Q in HR.
      apply Qle_shift_div_l; [reflexivity|]. lra. }
    unfold loop_fuel.
    pose proof (Qfloor_resp_le 0 (r1 K - 0) ltac:(lra)) as Hf.
    change (Qfloor 0) with 0 in Hf.
    destruct (Z.to_nat (Qfloor (r1 K - 0) + 1)) as [|n] eqn:Hn; [lia|].
    simpl. apply Qle_bool_iff in Hr1. rewrite Hr1. left. reflexivity. }
  rewrite <- (get_comp _ (Point.x c + 0) (Point.y c + 0)) by lra.
  apply (circles_set c 0 0 0 (Point.x c + 0, Point.y c + 0)%Q
           (finder_radii K) H0).
  - apply first_offset. lra.
  - simpl. tauto.
  - simpl. rewrite (pixel_comp _ _ _ (Point.x c) (Point.y c)) by lra.
    exact Hp.
Qed.

(** X12: what tells the two patterns apart.  [drawAlignmentPattern]
    never touches the pixel at its centre; [drawFinderPattern], for a
    FINDER_RADIUS of 0 or more, sets the pixel at its centre. *)
Theorem pattern_cores (K : Constants) (c : Point.t) (m : BitMatrix.t) :
  BitMatrix.get (drawAlignmentPattern K c m) (Point.x c) (Point.y c)
  = BitMatrix.get m (Point.x c) (Point.y c) /\
  (0 <= FINDER_RADIUS K ->
   BitMatrix.pixel m (Point.x c) (Point.y c) <> None ->
   BitMatrix.get (drawFinderPattern K c m) (Point.x c) (Point.y c) = 1).
Proof.
  split; [apply alignment_off_centre | apply finder_sets_centre].
Qed.

Lemma pattern_cores_witness :
  let c := Point.make 20 20 in
  let m := BitMatrix.new 60 60 in
  BitMatrix.get (drawFinderPattern layout_r14 c m) 20 20 = 1 /\
  BitMatrix.get (drawAlignmentPattern layout_r14 c m) 20 20 = 0.
Proof.
  intros c m.
  destruct (pattern_cores layout_r14 c m) as [Ha Hf].
  split.
  - apply Hf; [simpl; lia | vm_compute; discriminate].
  - transitivity (BitMatrix.get m (Point.x c) (Point.y c));
      [exact Ha | reflexivity].
Defined.

(** ** Glyphs *)

Lemma fold_left_ext_in {A B : Type} (f g : A -> B -> A) (l : list B) :
  (forall a b, In b l -> f a b = g a b) ->
  forall a, fold_left f l a = fold_left g l a.
Proof.
  induction l as [|b l IH]; intros H a; simpl; [reflexivity|].
  rewrite H by (left; reflexivity).
  apply IH. intros; apply H; right; assumption.
Qed.

Lemma drawBit_test K row col (v : Z) m (bit : Z) :
  0 <= bit < 32 ->
  drawBit K row col (JS.Number v) m bit
  = let m1 :=
      fillRect (inject_Z (startX K col))
               (inject_Z (startY K row + UNIT_DIM K * bit * 2))
               (SYMBOL_DIM K) (UNIT_DIM K) 1 m in
    if Z.testbit v bit then m1
    else fillRect
           (inject_Z (startX K col) + inject_Z (UNIT_DIM K) * (9 # 2))
           (inject_Z (startY K row + UNIT_DIM K * bit * 2))
           (UNIT_DIM K * 2) (UNIT_DIM K) 0 m1.
Proof.
  intros Hb. unfold drawBit. rewrite JSFacts.bit_test by exact Hb.
  destruct (Z.testbit v bit); reflexivity.
Qed.

(** X13: a glyph shows the low BITS_PER_SYMBOL bits of the cell value
    and nothing else (for at most 32 bars): two values that agree on these
    bits are drawn alike, and so is a value and its remainder modulo
    [2 ^ BITS_PER_SYMBOL]. *)
Theorem drawSymbol_low_bits (K : Constants) (row col v v' : Z)
  (m : BitMatrix.t) :
  0 <= BITS_PER_SYMBOL K <= 32 ->
  ((forall b, 0 <= b < BITS_PER_SYMBOL K ->
              Z.testbit v b = Z.testbit v' b) ->
   drawSymbol K row col (JS.Number v) m
   = drawSymbol K row col (JS.Number v') m) /\
  drawSymbol K row col (JS.Number (v mod 2 ^ BITS_PER_SYMBOL K)) m
  = drawSymbol K row col (JS.Number v) m.
Proof.
  intros HB.
  assert (Hagree : forall w w',
            (forall b, 0 <= b < BITS_PER_SYMBOL K ->
                       Z.testbit w b = Z.testbit w' b) ->
            drawSymbol K row col (JS.Number w) m
            = drawSymbol K row col (JS.Number w') m).
  { intros w w' Hbits. unfold drawSymbol. apply fold_left_ext_in.
    intros m1 b Hb. apply in_range in Hb.
    rewrite !drawBit_test by lia. rewrite (Hbits b Hb). reflexivity. }
  split; [apply Hagree|].
  apply Hagree. intros b Hb. apply Z.mod_pow2_bits_low. lia.
Qed.

Lemma drawSymbol_low_bits_witness :
  drawSymbol layout_r14 0 0 (JS.Number (65535 mod 2 ^ 6))
    (BitMatrix.new 70 70)
  = drawSymbol layout_r14 0 0 (JS.Number 65535) (BitMatrix.new 70 70).
Proof.
  apply (proj2 (drawSymbol_low_bits layout_r14 0 0 65535 65535
                  (BitMatrix.new 70 70) ltac:(simpl; lia))).
Defined.

Lemma drawBit_undefined K row col m bit :
  drawBit K row col JS.Undefined m bit
  = drawBit K row col (JS.Number 0) m bit.
Proof. unfold drawBit, JS.band. reflexivity. Qed.

Lemma Uint16Array_get_padded (d : list Z) (n : nat) (k : Z) :
  JS.Uint16Array_get (d ++ repeat 0 n) k = JS.Uint16Array_get d k \/
  (JS.Uint16Array_get d k = JS.Undefined /\
   JS.Uint16Array_get (d ++ repeat 0 n) k = JS.Number 0).
Proof.
  unfold JS.Uint16Array_get. destruct (k <? 0); [left; reflexivity|].
  destruct (Nat.lt_ge_cases (Z.to_nat k) (length d)) as [Hk|Hk].
  - left. rewrite nth_error_app1 by exact Hk. reflexivity.
  - rewrite nth_error_app2 by exact Hk.
    rewrite (proj2 (nth_error_None d (Z.to_nat k)) Hk).
    destruct (nth_error (repeat 0 n) (Z.to_nat k - length d)) as [z|] eqn:Hz.
    + right. apply nth_error_In, repeat_spec in Hz. subst z. auto.
    + left. reflexivity.
Qed.

(** X14: [render] draws a cell that is missing from the data array (an
    index past its end reads [undefined]) as a cell of value 0: appending
    any number of zero cells to the data leaves the bitmap unchanged. *)
Theorem render_short_data (K : Constants) (r c : Z) (d : list Z) (n : nat) :
  render K {| rows := r; cols := c; data := d ++ repeat 0 n |}
  = render K {| rows := r; cols := c; data := d |}.
Proof.
  unfold render. cbn [rows cols data]. f_equal.
  apply fold_left_ext_in. intros m i _.
  apply fold_left_ext_in. intros m' j _.
  destruct (Uint16Array_get_padded d n (i * c + j)) as [->|[-> ->]];
    [reflexivity|].
  unfold drawSymbol. apply fold_left_ext_in. intros m'' b _.
  symmetry. apply drawBit_undefined.
Qed.

(** ** Glyphs, pixel by pixel *)

Lemma notch_written_int (x0 U y0 h a b : Z) :
  written
    (rect_points (inject_Z x0 + inject_Z U * (9 # 2)) (inject_Z y0)
       (U * 2) h)
    (inject_Z a) (inject_Z b) ->
  2 * x0 + 9 * U <= 2 * a < 2 * x0 + 13 * U /\ y0 <= b < y0 + h.
Proof.
  intros H. apply rect_written in H.
  destruct H as (i & j & Hi & Hj & Hx & Hy).
  rewrite <- inject_Z_plus in Hy.
  pose proof (proj1 (inject_Z_injective _ _) Hy) as Hy'.
  assert (Hx' : (inject_Z (2 * x0 + 9 * U + 2 * j) == inject_Z (2 * a))%Q).
  { rewrite !inject_Z_plus, !inject_Z_mult.
    change (inject_Z 2) with 2%Q. change (inject_Z 9) with 9%Q. lra. }
  pose proof (proj1 (inject_Z_injective _ _) Hx') as Hx''.
  lia.
Qed.

(** The round of a bar changes no pixel outside the bar and its
    notch. *)
Lemma drawBit_far_int K row col mask (m : BitMatrix.t) (bit a b : Z) :
  let top := startY K row + UNIT_DIM K * bit * 2 in
  ~ (startX K col <= a < startX K col + SYMBOL_DIM K /\
     top <= b < top + UNIT_DIM K) ->
  ~ (2 * startX K col + 9 * UNIT_DIM K <= 2 * a
     < 2 * startX K col + 13 * UNIT_DIM K /\
     top <= b < top + UNIT_DIM K) ->
  BitMatrix.get (drawBit K row col mask m bit) (inject_Z a) (inject_Z b)
  = BitMatrix.get m (inject_Z a) (inject_Z b).
Proof.
  intros top Hbar Hnotch.
  assert (H1 : forall m1,
            BitMatrix.get
              (fillRect (inject_Z (startX K col)) (inject_Z top)
                 (SYMBOL_DIM K) (UNIT_DIM K) 1 m1)
              (inject_Z a) (inject_Z b)
            = BitMatrix.get m1 (inject_Z a) (inject_Z b)).
  { intros m1. rewrite fillRect_writes. apply writes_far.
    intros q Hq [Hx Hy]. apply Hbar.
    apply (rect_written_int _ _ _ _ _ _ a b (Qeq_refl _) (Qeq_refl _)).
    exists q. auto. }
  unfold drawBit. fold top.
  destruct (JS.band mask (JS.shl 1 bit) =? 0); [|apply H1].
  rewrite <- (H1 m). rewrite (fillRect_writes _ _ (UNIT_DIM K * 2)).
  apply writes_far. intros q Hq [Hx Hy]. apply Hnotch.
  apply notch_written_int. exists q. auto.
Qed.

Lemma fold_left_frame {A : Type} (step : BitMatrix.t -> A -> BitMatrix.t)
  (px py : Q) (l : list A) :
  (forall m a, In a l ->
     BitMatrix.get (step m a) px py = BitMatrix.get m px py) ->
  forall m,
    BitMatrix.get (fold_left step l m) px py = BitMatrix.get m px py.
Proof.
  induction l as [|a l IH]; intros H m; simpl; [reflexivity|].
  rewrite IH by (intros; apply H; right; assumption).
  apply H. left; reflexivity.
Qed.

(** A glyph changes no pixel outside its own cell. *)
Lemma drawSymbol_far_int K row col mask (m : BitMatrix.t) (a b : Z) :
  a < startX K col \/
  b < startY K row \/
  startY K row + (2 * BITS_PER_SYMBOL K - 1) * UNIT_DIM K <= b \/
  (startX K col + SYMBOL_DIM K <= a /\
   2 * startX K col + 13 * UNIT_DIM K <= 2 * a) ->
  BitMatrix.get (drawSymbol K row col mask m) (inject_Z a) (inject_Z b)
  = BitMatrix.get m (inject_Z a) (inject_Z b).
Proof.
  intros Hout. unfold drawSymbol. apply fold_left_frame.
  intros m1 bit Hbit. apply in_range in Hbit.
  apply drawBit_far_int; intros [Hx Hy]; nia.
Qed.

(** X15: [drawSymbol] changes no pixel outside the cell of its glyph:
    nothing left of or above the top left corner of the cell, nothing
    below its last bar, nothing right of both the bars and the notch. *)
Theorem drawSymbol_own_cell (K : Constants) (row col : Z) (mask : JS.value)
  (m : BitMatrix.t) (a b : Z) :
  a < startX K col \/
  b < startY K row \/
  startY K row + (2 * BITS_PER_SYMBOL K - 1) * UNIT_DIM K <= b \/
  (startX K col + SYMBOL_DIM K <= a /\
   2 * startX K col + 13 * UNIT_DIM K <= 2 * a) ->
  BitMatrix.get (drawSymbol K row col mask m) (inject_Z a) (inject_Z b)
  = BitMatrix.get m (inject_Z a) (inject_Z b).
Proof. apply drawSymbol_far_int. Qed.

Lemma drawSymbol_own_cell_witness :
  let m := BitMatrix.new 70 70 in
  BitMatrix.get (drawSymbol layout_r14 0 0 (JS.Number 5) m)
    (inject_Z 62) (inject_Z 40)
  = BitMatrix.get m (inject_Z 62) (inject_Z 40).
Proof.
  intros m. apply drawSymbol_own_cell.
  right. right. right. simpl. lia.
Defined.

(** ** The rendered bitmap *)

Lemma render_steps (K : Constants) (code : EncodedIChing) :
  render K code = {| matrix := draw_symbols K code (draw_patterns K code) |}.
Proof. reflexivity. Qed.

Lemma draw_patterns_dims K code :
  same_dims (BitMatrix.new (imgHeight K code) (imgWidth K code))
    (draw_patterns K code).
Proof.
  unfold draw_patterns.
  eapply same_dims_trans; [|apply drawAlignmentPattern_dims].
  eapply same_dims_trans; [|apply drawFinderPattern_dims].
  eapply same_dims_trans; [|apply drawFinderPattern_dims].
  apply drawFinderPattern_dims.
Qed.

Lemma draw_row_dims K code m i : same_dims m (draw_row K code m i).
Proof. apply fold_dims. intros; apply drawSymbol_dims. Qed.

(** One step of a loop decides a pixel when the other steps leave the
    pixel alone. *)
Lemma fold_left_one (step : BitMatrix.t -> Z -> BitMatrix.t) (px py : Q)
  (V : Z) (m0 : BitMatrix.t) (k0 : Z) (l : list Z) :
  NoDup l -> In k0 l ->
  (forall m k, same_dims m (step m k)) ->
  (forall m k, In k l -> k <> k0 ->
     BitMatrix.get (step m k) px py = BitMatrix.get m px py) ->
  (forall m, same_dims m0 m -> BitMatrix.get (step m k0) px py = V) ->
  forall m, same_dims m0 m ->
    BitMatrix.get (fold_left step l m) px py = V.
Proof.
  intros Hnd Hin Hdims Hfar Hat.
  induction l as [|k l IH]; intros m Hm; simpl; [contradiction|].
  inversion Hnd as [|k' l' Hk Hl]; subst.
  destruct (Z.eq_dec k k0) as [->|Hne].
  - rewrite fold_left_frame.
    + apply Hat, Hm.
    + intros m1 k1 Hk1. apply Hfar; [right; exact Hk1|].
      intros ->. contradiction.
  - apply IH; auto.
    + destruct Hin; [contradiction | assumption].
    + intros m1 k1 Hk1. apply Hfar. right; exact Hk1.
    + eapply same_dims_trans; [exact Hm | apply Hdims].
Qed.

Lemma notch_corner (x0 U u : Z) :
  U = 2 * u ->
  (inject_Z x0 + inject_Z U * (9 # 2) == inject_Z (x0 + 9 * u))%Q.
Proof.
  intros ->. rewrite !inject_Z_plus, !inject_Z_mult.
  change (inject_Z 2) with 2%Q. change (inject_Z 9) with 9%Q. lra.
Qed.

(** The round of bar [bit], on a pixel of its band. *)
Lemma drawBit_band K row col (v : Z) (m : BitMatrix.t) (bit u dx dy : Z) :
  UNIT_DIM K = 2 * u ->
  0 <= bit < 32 ->
  0 <= dx < SYMBOL_DIM K ->
  0 <= dy < UNIT_DIM K ->
  let a := startX K col + dx in
  let b := startY K row + UNIT_DIM K * bit * 2 + dy in
  BitMatrix.inside m a b = true ->
  BitMatrix.get (drawBit K row col (JS.Number v) m bit)
    (inject_Z a) (inject_Z b)
  = bar_pixel (Z.testbit v bit) u dx.
Proof.
  intros HU Hbit Hdx Hdy a b Hin.
  rewrite drawBit_test by exact Hbit. cbv zeta.
  set (top := startY K row + UNIT_DIM K * bit * 2).
  assert (Hbar : forall m1, same_dims m m1 ->
            BitMatrix.get
              (fillRect (inject_Z (startX K col)) (inject_Z top)
                 (SYMBOL_DIM K) (UNIT_DIM K) 1 m1)
              (inject_Z a) (inject_Z b) = 1).
  { intros m1 Hd.
    rewrite (fillRect_get_int _ _ (startX K col) top)
      by reflexivity.
    rewrite (inside_same_dims m m1 a b Hd), Hin.
    replace ((startX K col <=? a) && (a <? startX K col + SYMBOL_DIM K)
             && (top <=? b) && (b <? top + UNIT_DIM K)) with true;
      [reflexivity|].
    symmetry. repeat (apply andb_true_intro; split);
      first [apply Z.leb_le | apply Z.ltb_lt]; subst a b top; lia. }
  unfold bar_pixel.
  destruct (Z.testbit v bit); cbn [orb].
  - apply Hbar, same_dims_refl.
  - rewrite (fillRect_get_int _ _ (startX K col + 9 * u) top)
      by (try reflexivity; apply notch_corner, HU).
    rewrite (inside_same_dims m) by apply fillRect_dims.
    rewrite Hin, andb_true_r.
    rewrite (Hbar m (same_dims_refl m)).
    replace ((startX K col + 9 * u <=? a)
             && (a <? startX K col + 9 * u + UNIT_DIM K * 2)
             && (top <=? b) && (b <? top + UNIT_DIM K))
      with ((9 * u <=? dx) && (dx <? 13 * u)).
    + destruct ((9 * u <=? dx) && (dx <? 13 * u)); reflexivity.
    + subst a b top. apply Bool.eq_iff_eq_true.
      rewrite !andb_true_iff, !Z.leb_le, !Z.ltb_lt. lia.
Qed.

(** The glyph, on a pixel of band [bit] of its cell. *)
Lemma drawSymbol_band K row col (v : Z) (m : BitMatrix.t)
  (bit u dx dy : Z) :
  UNIT_DIM K = 2 * u ->
  0 <= bit < BITS_PER_SYMBOL K -> bit < 32 ->
  0 <= dx < SYMBOL_DIM K ->
  0 <= dy < UNIT_DIM K ->
  let a := startX K col + dx in
  let b := startY K row + UNIT_DIM K * bit * 2 + dy in
  BitMatrix.inside m a b = true ->
  BitMatrix.get (drawSymbol K row col (JS.Number v) m)
    (inject_Z a) (inject_Z b)
  = bar_pixel (Z.testbit v bit) u dx.
Proof.
  intros HU Hbit H32 Hdx Hdy a b Hin. unfold drawSymbol.
  apply (fold_left_one _ _ _ _ m bit).
  - apply range_NoDup.
  - apply in_range, Hbit.
  - intros; apply drawBit_dims.
  - intros m1 k Hk Hne. apply in_range in Hk.
    apply drawBit_far_int; intros [Hx Hy]; subst a b; nia.
  - intros m1 Hd. apply drawBit_band; auto; [lia|].
    rewrite (inside_same_dims m m1 _ _ Hd). exact Hin.
  - apply same_dims_refl.
Qed.

Lemma startX_step K (j j' : Z) :
  0 <= SYMBOL_DIM K + GAP_DIM K -> j < j' ->
  startX K j + (SYMBOL_DIM K + GAP_DIM K) <= startX K j'.
Proof. unfold startX. intros. nia. Qed.

Lemma startY_step K (i i' : Z) :
  0 <= SYMBOL_DIM K + GAP_DIM K -> i < i' ->
  startY K i + (SYMBOL_DIM K + GAP_DIM K) <= startY K i'.
Proof. unfold startY. intros. nia. Qed.

Lemma inside_new (h w a b : Z) :
  0 <= a < w -> 0 <= b < h ->
  BitMatrix.inside (BitMatrix.new h w) a b = true.
Proof.
  intros Ha Hb. unfold BitMatrix.inside. cbn.
  repeat (apply andb_true_intro; split);
    first [apply Z.leb_le | apply Z.ltb_lt]; lia.
Qed.

(** X16: the rendered bitmap shows the data.  With an even UNIT_DIM
    [2 u], non-negative GAP_DIM and GRID_OFFSET, and cells large enough
    for their bars and notch, the pixel at column [dx] of bar [bit] of
    the cell in row [i] and column [j] is clear when bit [bit] of the cell
    value is 0 and [dx] lies in the notch [9u .. 13u - 1], and set
    otherwise: no later glyph overwrites an earlier one. *)
Theorem render_glyph_pixels (K : Constants) (code : EncodedIChing)
  (u i j v bit dx dy : Z) :
  UNIT_DIM K = 2 * u ->
  0 <= GAP_DIM K ->
  0 <= GRID_OFFSET K ->
  13 * u <= SYMBOL_DIM K ->
  (2 * BITS_PER_SYMBOL K - 1) * UNIT_DIM K <= SYMBOL_DIM K ->
  0 <= i < rows code ->
  0 <= j < cols code ->
  JS.Uint16Array_get (data code) (i * cols code + j) = JS.Number v ->
  0 <= bit < BITS_PER_SYMBOL K ->
  bit < 32 ->
  0 <= dx < SYMBOL_DIM K ->
  0 <= dy < UNIT_DIM K ->
  BitMatrix.get (matrix (render K code))
    (inject_Z (startX K j + dx))
    (inject_Z (startY K i + UNIT_DIM K * bit * 2 + dy))
  = bar_pixel (Z.testbit v bit) u dx.
Proof.
  intros HU HG HO HS HB Hi Hj Hv Hbit H32 Hdx Hdy.
  rewrite render_steps. cbn [matrix]. unfold draw_symbols.
  set (a := startX K j + dx).
  set (b := startY K i + UNIT_DIM K * bit * 2 + dy).
  assert (HP : 0 <= SYMBOL_DIM K + GAP_DIM K) by lia.
  assert (Hband : 0 <= UNIT_DIM K * bit * 2 + dy
                  < (2 * BITS_PER_SYMBOL K - 1) * UNIT_DIM K) by nia.
  assert (Hin : BitMatrix.inside
                  (BitMatrix.new (imgHeight K code) (imgWidth K code)) a b
                = true).
  { apply inside_new; subst a b; unfold imgHeight, imgWidth, startX, startY;
      nia. }
  apply (fold_left_one _ _ _ _
           (BitMatrix.new (imgHeight K code) (imgWidth K code)) i).
  - apply range_NoDup.
  - apply in_range, Hi.
  - intros; apply draw_row_dims.
  - intros m k Hk Hne. apply in_range in Hk. unfold draw_row.
    apply fold_left_frame. intros m1 j1 _.
    apply drawSymbol_far_int.
    destruct (Z.lt_ge_cases k i) as [Hlt|Hge].
    + pose proof (startY_step K k i HP Hlt). right. right. left.
      subst b. lia.
    + pose proof (startY_step K i k HP ltac:(lia)). right. left.
      subst b. lia.
  - intros m Hd. unfold draw_row.
    apply (fold_left_one _ _ _ _ m j).
    + apply range_NoDup.
    + apply in_range, Hj.
    + intros; apply drawSymbol_dims.
    + intros m1 k Hk Hne. apply in_range in Hk.
      apply drawSymbol_far_int.
      destruct (Z.lt_ge_cases k j) as [Hlt|Hge].
      * pose proof (startX_step K k j HP Hlt). right. right. right.
        subst a. lia.
      * pose proof (startX_step K j k HP ltac:(lia)). left.
        subst a. lia.
    + intros m1 Hd1. rewrite Hv.
      apply drawSymbol_band; auto.
      rewrite (inside_same_dims m m1 _ _ Hd1).
      rewrite (inside_same_dims _ m _ _ Hd). exact Hin.
    + apply same_dims_refl.
  - apply draw_patterns_dims.
Qed.

Lemma render_glyph_pixels_witness :
  BitMatrix.get (matrix (render layout_r14 sample_grid))
    (inject_Z 49) (inject_Z 44) = 0 /\
  BitMatrix.get (matrix (render layout_r14 sample_grid))
    (inject_Z 49) (inject_Z 40) = 1.
Proof.
  split.
  - apply (render_glyph_pixels layout_r14 sample_grid 1 0 0 5 1 9 0);
      simpl; try reflexivity; lia.
  - apply (render_glyph_pixels layout_r14 sample_grid 1 0 0 5 0 9 0);
      simpl; try reflexivity; lia.
Defined.

Lemma finder_keeps K c (m : BitMatrix.t) (px py : Q) :
  BitMatrix.get m px py = 1 ->
  BitMatrix.get (drawFinderPattern K c m) px py = 1.
Proof. intros H. rewrite drawFinderPattern_fold. apply circles_keep, H. Qed.

Lemma alignment_keeps K c (m : BitMatrix.t) (px py : Q) :
  BitMatrix.get m px py = 1 ->
  BitMatrix.get (drawAlignmentPattern K c m) px py = 1.
Proof.
  intros H. unfold drawAlignmentPattern, for_le. apply circles_keep, H.
Qed.

(** The glyphs leave the margin above and left of the grid alone. *)
Lemma draw_symbols_margin K code (m : BitMatrix.t) (a b : Z) :
  0 <= SYMBOL_DIM K + GAP_DIM K ->
  a < GRID_OFFSET K \/ b < GRID_OFFSET K ->
  BitMatrix.get (draw_symbols K code m) (inject_Z a) (inject_Z b)
  = BitMatrix.get m (inject_Z a) (inject_Z b).
Proof.
  intros HP Hab. unfold draw_symbols. apply fold_left_frame.
  intros m1 i Hi. apply in_range in Hi. unfold draw_row.
  apply fold_left_frame. intros m2 j Hj. apply in_range in Hj.
  apply drawSymbol_far_int. unfold startX, startY.
  destruct Hab; [left | right; left]; nia.
Qed.

(** X17: every rendered bitmap carries the cores of its three finder
    patterns.  With a FINDER_RADIUS of 0 or more, a FINDER_OFFSET above 0
    and below GRID_OFFSET, and a grid of at least one row and one column of
    cells of non-negative size and gap, the pixels at the centres of the
    top left, top right and bottom left patterns are set in the bitmap
    [render] returns. *)
Theorem render_finder_cores (K : Constants) (code : EncodedIChing) :
  0 <= FINDER_RADIUS K ->
  0 < FINDER_OFFSET K < GRID_OFFSET K ->
  0 <= SYMBOL_DIM K -> 0 <= GAP_DIM K ->
  1 <= rows code -> 1 <= cols code ->
  let img := matrix (render K code) in
  let fo := FINDER_OFFSET K in
  BitMatrix.get img (inject_Z fo) (inject_Z fo) = 1 /\
  BitMatrix.get img (inject_Z (imgWidth K code - fo)) (inject_Z fo) = 1 /\
  BitMatrix.get img (inject_Z fo) (inject_Z (imgHeight K code - fo)) = 1.
Proof.
  intros HR HF HS HG Hrows Hcols img fo. subst img.
  rewrite render_steps. cbn [matrix].
  assert (HP : 0 <= SYMBOL_DIM K + GAP_DIM K) by lia.
  assert (HW : 2 * GRID_OFFSET K <= imgWidth K code)
    by (unfold imgWidth; nia).
  assert (HH : 2 * GRID_OFFSET K <= imgHeight K code)
    by (unfold imgHeight; nia).
  rewrite !draw_symbols_margin by (auto; subst fo; lia).
  unfold draw_patterns.
  set (m0 := BitMatrix.new (imgHeight K code) (imgWidth K code)).
  set (c1 := Point.make (inject_Z (FINDER_OFFSET K))
               (inject_Z (FINDER_OFFSET K))).
  set (c2 := Point.make (inject_Z (imgWidth K code - FINDER_OFFSET K))
               (inject_Z (FINDER_OFFSET K))).
  set (c3 := Point.make (inject_Z (FINDER_OFFSET K))
               (inject_Z (imgHeight K code - FINDER_OFFSET K))).
  set (m1 := drawFinderPattern K c1 m0).
  set (m2 := drawFinderPattern K c2 m1).
  set (m3 := drawFinderPattern K c3 m2).
  assert (Hpix : forall m a b,
             same_dims m0 m -> 0 <= a < imgWidth K code ->
             0 <= b < imgHeight K code ->
             BitMatrix.pixel m (inject_Z a) (inject_Z b) <> None).
  { intros m a b Hd Ha Hb. rewrite pixel_inject_Z.
    rewrite (inside_same_dims m0 m a b Hd).
    unfold m0. rewrite inside_new by assumption. discriminate. }
  assert (Hd1 : same_dims m0 m1) by apply drawFinderPattern_dims.
  assert (Hd2 : same_dims m0 m2).
  { eapply same_dims_trans; [exact Hd1 | apply drawFinderPattern_dims]. }
  repeat split; apply alignment_keeps.
  - apply finder_keeps, finder_keeps.
    apply (finder_sets_centre K c1 m0 HR).
    apply Hpix; [apply same_dims_refl | subst fo; lia | subst fo; lia].
  - apply finder_keeps.
    apply (finder_sets_centre K c2 m1 HR).
    apply Hpix; [exact Hd1 | subst fo; lia | subst fo; lia].
  - apply (finder_sets_centre K c3 m2 HR).
    apply Hpix; [exact Hd2 | subst fo; lia | subst fo; lia].
Qed.

Lemma render_finder_cores_witness :
  BitMatrix.get (matrix (render layout_r14 sample_grid))
    (inject_Z 20) (inject_Z 20) = 1 /\
  BitMatrix.get (matrix (render layout_r14 sample_grid))
    (inject_Z 110) (inject_Z 20) = 1.
Proof.
  pose proof (render_finder_cores layout_r14 sample_grid
                ltac:(simpl; lia) ltac:(simpl; lia) ltac:(simpl; lia)
                ltac:(simpl; lia) ltac:(simpl; lia) ltac:(simpl; lia))
    as (H1 & H2 & _).
  split; [exact H1 | exact H2].
Defined.

Lemma outside_pattern_Q (K : Constants) (cx cy a b : Z) :
  outside_pattern K cx cy a b ->
  let R := inject_Z (FINDER_RADIUS K) in
  (inject_Z a < inject_Z cx - R \/ inject_Z cx + R < inject_Z a \/
   inject_Z b < inject_Z cy - R \/ inject_Z cy + R < inject_Z b)%Q.
Proof.
  unfold outside_pattern. intros H. cbv zeta.
  unfold Qminus. rewrite <- !inject_Z_opp, <- !inject_Z_plus.
  rewrite <- !Zlt_Qlt. lia.
Qed.

(** X18: the background of a rendered bitmap.  A pixel that lies
    outside the cell of every glyph and outside the square of half side
    FINDER_RADIUS about each of the four pattern centres is 0 in the
    bitmap [render] returns. *)
Theorem render_background (K : Constants) (code : EncodedIChing) (a b : Z) :
  let fo := FINDER_OFFSET K in
  let W := imgWidth K code in
  let H := imgHeight K code in
  (forall i j, 0 <= i < rows code -> 0 <= j < cols code ->
               outside_cell K i j a b) ->
  outside_pattern K fo fo a b ->
  outside_pattern K (W - fo) fo a b ->
  outside_pattern K fo (H - fo) a b ->
  outside_pattern K (W - fo) (H - fo) a b ->
  BitMatrix.get (matrix (render K code)) (inject_Z a) (inject_Z b) = 0.
Proof.
  intros fo W H Hcells H1 H2 H3 H4.
  rewrite render_steps. cbn [matrix].
  unfold draw_symbols. rewrite fold_left_frame.
  - unfold draw_patterns.
    rewrite alignment_far by (apply outside_pattern_Q, H4).
    rewrite finder_far by (apply outside_pattern_Q, H3).
    rewrite finder_far by (apply outside_pattern_Q, H2).
    rewrite finder_far by (apply outside_pattern_Q, H1).
    apply get_new.
  - intros m i Hi. apply in_range in Hi. unfold draw_row.
    apply fold_left_frame. intros m1 j Hj. apply in_range in Hj.
    apply drawSymbol_far_int. apply Hcells; assumption.
Qed.

Lemma render_background_witness :
  BitMatrix.get (matrix (render layout_r14 sample_grid))
    (inject_Z 2) (inject_Z 3) = 0.
Proof.
  apply render_background.
  - intros i j _ Hj. left. unfold startX. simpl in *. lia.
  - left. simpl. lia.
  - right. right. left. simpl. lia.
  - left. simpl. lia.
  - right. right. left. simpl. lia.
Defined.

(** X19: a glyph leaves the rows between its bars alone: the UNIT_DIM
    rows below bar [bit] belong to no bar, and [drawSymbol] changes no
    pixel in them. *)
Theorem drawSymbol_between_bars (K : Constants) (row col : Z)
  (mask : JS.value) (m : BitMatrix.t) (bit a b : Z) :
  startY K row + UNIT_DIM K * (2 * bit + 1) <= b ->
  b < startY K row + UNIT_DIM K * (2 * bit + 2) ->
  BitMatrix.get (drawSymbol K row col mask m) (inject_Z a) (inject_Z b)
  = BitMatrix.get m (inject_Z a) (inject_Z b).
Proof.
  intros Hlo Hhi. unfold drawSymbol. apply fold_left_frame.
  intros m1 k _.
  apply drawBit_far_int; intros [_ Hy];
    destruct (Z.le_gt_cases k bit); nia.
Qed.

Lemma drawSymbol_between_bars_witness :
  let m := BitMatrix.new 70 70 in
  BitMatrix.get (drawSymbol layout_r14 0 0 (JS.Number 63) m)
    (inject_Z 45) (inject_Z 42)
  = BitMatrix.get m (inject_Z 45) (inject_Z 42).
Proof.
  intros m. apply (drawSymbol_between_bars layout_r14 0 0 _ m 0);
    simpl; lia.
Defined.

End WriterExtra.
